(** * The [DataBase] connection manager of PGC_start

    A shallow embedding of the data-access class [DataBase]
    (singleton registry, lazy connect, unique indexes, CRUD surface) and
    the properties its specification states about it.

    The class is written against the MongoDB driver.  The driver is an
    external collaborator: its side of every call is collected in the
    [World] record below (the settled value of [clientPromise], the
    contents of the store, a schedule of driver failures, and the record of
    the calls that reached it).  The methods of the class are translated
    statement by statement into a state-and-exception monad over the pair
    of the receiver object and that world.

    What is assumed of the driver, and only of the driver:
    - values are primitives; a filter [{ field: value }] is an equality
      test on what the store reads under [field], where a missing field
      reads as null and a dotted name is a path, which in a document of
      primitives leads nowhere; names that start with a dollar sign are
      operators to the store, not fields, and no statement is made about
      them;
    - a request that the driver does not fail is served from the store as
      described in [coll_createIndex], [coll_findOne], [coll_insertOne]
      and [coll_deleteMany]; any request may instead fail with any error,
      as the schedule [faults] says, either before it reached the store or
      after it was applied there, as the schedule [lost] says (this covers
      network errors, the index conflict, lost responses, and a driver that
      refuses a client after [close]);
    - responses to requests that are in flight together arrive in any
      order: the schedule [arrivals] names it;
    - [clientPromise] is settled, and awaiting it again yields the same
      client or the same error.

    Console output is kept, one constructor per message of the class.
    Two places of the class are cut at their [await], so that what runs
    before and after it can be interleaved: [createUniqueIndex], whose
    requests [initDb] starts together, and [connectDb], for two first
    calls that overlap.  Elsewhere a method runs from call to return
    without another call of the class starting in between, and [step]
    below is about calls made one after the other. *)

From stdpp Require Import gmap strings list fin_maps.
From Stdlib Require Import ZArith.

Set Default Proof Using "Type".
Local Open Scope Z_scope.
Local Open Scope nat_scope.

(** ** Values, documents and filters *)

(** The primitive values callers hand to the layer (field values are
    strings and primitives); [VObjectId] is an identifier generated by the
    driver. *)
Inductive Value :=
| VNull
| VBool (b : bool)
| VNumber (n : Z)
| VString (s : string)
| VObjectId (n : nat).

#[global] Instance Value_eq_dec : EqDecision Value.
Proof. solve_decision. Defined.

(** A document and a filter are JS objects: finite maps from field names
    to values. *)
Abbreviation Document := (gmap string Value).
Abbreviation Filter := (gmap string Value).

(** ** Errors and outcomes *)

(** A thrown JS error object, with the two properties the class inspects. *)
Record Error := mkError {
  message : string;
  code : option Z;
  codeName : option string
}.

#[global] Instance Error_eq_dec : EqDecision Error.
Proof. solve_decision. Defined.

(** How a call ends: it returns (a promise resolves) or it throws (a
    promise rejects). *)
Inductive Outcome (A : Type) :=
| Return (a : A)
| Throw (e : Error).
Arguments Return {A} a.
Arguments Throw {A} e.

(** ** Driver handles *)

Record MongoClient := mkClient { client_id : nat }.

Record Db := mkDb { db_client : MongoClient; db_name : string }.

Record Collection := mkCollection { coll_db : Db; coll_name : string }.

#[global] Instance MongoClient_eq_dec : EqDecision MongoClient.
Proof. solve_decision. Defined.
#[global] Instance Db_eq_dec : EqDecision Db.
Proof. solve_decision. Defined.
#[global] Instance Collection_eq_dec : EqDecision Collection.
Proof. solve_decision. Defined.

Record InsertOneResult := mkInsertOneResult {
  ins_acknowledged : bool;
  insertedId : Value
}.

Record DeleteResult := mkDeleteResult {
  del_acknowledged : bool;
  deletedCount : nat
}.

(** ** The receiver object *)

(** [class DataBase]: the constructor parameter [dbName] and the two
    nullable private fields. *)
Record DataBase := mkDataBase {
  dbName : string;
  client : option MongoClient;
  db : option Db
}.

(** ** Console output *)

Inductive Level := LvlLog | LvlWarn | LvlError.

(** One constructor per message template of the class, carrying the
    interpolated values. *)
Inductive Message :=
| MsgInitDB
| MsgDatabaseConnected (name : string)
| MsgIndexesCreated (collectionName : string)
| MsgErrorInitializingDatabase (e : Error)
| MsgAlreadyInitialized (name : string)
| MsgAlreadyConnected (name : string)
| MsgConnected (name : string)
| MsgFailedToConnect (name : string) (e : Error)
| MsgNoActiveConnection
| MsgDisconnected (name : string)
| MsgFailedToDisconnect (name : string) (e : Error)
| MsgErrorInitializingCollection (e : Error)
| MsgUniqueIndexCreated (fieldName collectionName : string)
| MsgIndexAlreadyExists (fieldName collectionName : string)
| MsgErrorCreatingIndex (fieldName collectionName : string) (e : Error)
| MsgErrorCheckingExistence (field : string) (value : Value)
    (collectionName : string) (e : Error)
| MsgDocumentInserted (collectionName : string) (id : Value)
| MsgErrorInserting (collectionName : string) (e : Error)
| MsgDeleted (count : nat) (collectionName : string)
| MsgErrorDeleting (collectionName : string) (e : Error).

(** ** The world outside the class *)

(** A stored collection: its documents in insertion order and the fields
    that carry a unique index. *)
Record Coll := mkColl {
  docs : list Document;
  uniq : gset string
}.

Definition emptyColl : Coll := {| docs := []; uniq := ∅ |}.

(** Collections are addressed by database name and collection name; a
    collection that was never written to is empty. *)
Abbreviation Store := (gmap (string * string) Coll).

(** The calls that reach the driver. *)
Inductive DriverCall :=
| AwaitClientPromise
| CallClose (c : MongoClient)
| CallCreateIndex (c : Collection) (fieldName : string) (unique : bool)
| CallFindOne (c : Collection) (q : Filter)
| CallInsertOne (c : Collection) (d : Document)
| CallDeleteMany (c : Collection) (q : Filter).

(** [clientPromise] is the settled value of the promise the module imports;
    [faults] schedules the outcome of the coming driver calls, one entry per
    call ([None]: the call is served; [Some e]: it fails with [e]; past the
    end of the list every call is served); [lost] says, for each call that
    fails, whether the request had been applied to the store when it failed
    ([true]: applied, and the response lost; past the end of the list: not
    applied); [arrivals] gives, for each group of requests awaited together,
    the order in which their responses arrive; [nextOid] feeds the
    generated identifiers; [trace] and [console] record what happened,
    oldest first. *)
Record World := mkWorld {
  clientPromise : Outcome MongoClient;
  store : Store;
  faults : list (option Error);
  lost : list bool;
  arrivals : list (list nat);
  nextOid : nat;
  trace : list DriverCall;
  console : list (Level * Message)
}.

Definition set_store (st : Store) (w : World) : World :=
  {| clientPromise := clientPromise w; store := st; faults := faults w;
     lost := lost w; arrivals := arrivals w; nextOid := nextOid w;
     trace := trace w; console := console w |}.

Definition set_faults (fs : list (option Error)) (w : World) : World :=
  {| clientPromise := clientPromise w; store := store w; faults := fs;
     lost := lost w; arrivals := arrivals w; nextOid := nextOid w;
     trace := trace w; console := console w |}.

Definition set_lost (ls : list bool) (w : World) : World :=
  {| clientPromise := clientPromise w; store := store w; faults := faults w;
     lost := ls; arrivals := arrivals w; nextOid := nextOid w;
     trace := trace w; console := console w |}.

Definition set_arrivals (os : list (list nat)) (w : World) : World :=
  {| clientPromise := clientPromise w; store := store w; faults := faults w;
     lost := lost w; arrivals := os; nextOid := nextOid w;
     trace := trace w; console := console w |}.

Definition set_nextOid (n : nat) (w : World) : World :=
  {| clientPromise := clientPromise w; store := store w; faults := faults w;
     lost := lost w; arrivals := arrivals w; nextOid := n;
     trace := trace w; console := console w |}.

Definition record_call (ev : DriverCall) (w : World) : World :=
  {| clientPromise := clientPromise w; store := store w; faults := faults w;
     lost := lost w; arrivals := arrivals w; nextOid := nextOid w;
     trace := trace w ++ [ev]; console := console w |}.

Definition print (l : Level) (m : Message) (w : World) : World :=
  {| clientPromise := clientPromise w; store := store w; faults := faults w;
     lost := lost w; arrivals := arrivals w; nextOid := nextOid w;
     trace := trace w; console := console w ++ [(l, m)] |}.

(** ** The store as the driver serves it *)

Definition lookupColl (st : Store) (c : Collection) : Coll :=
  default emptyColl (st !! (db_name (coll_db c), coll_name c)).

Definition updateColl (c : Collection) (cl : Coll) (st : Store) : Store :=
  <[(db_name (coll_db c), coll_name c) := cl]> st.

(** A name with a dot in it is a path into nested documents. *)
Fixpoint dotted (f : string) : bool :=
  match f with
  | EmptyString => false
  | String a f' => bool_decide (String a EmptyString = ".") || dotted f'
  end.

(** A name that starts with a dollar sign is an operator to the store. *)
Definition isOperator (f : string) : bool :=
  match f with
  | String a _ => bool_decide (String a EmptyString = "$")
  | EmptyString => false
  end.

(** What the store reads in a document under a field name, for a query as
    for an index: a missing field reads as null, and so does a path, since
    the values of a document are primitives. *)
Definition indexKey (f : string) (d : Document) : Value :=
  if dotted f then VNull else default VNull (d !! f).

(** A document matches a filter when, under every name of the filter, the
    store reads the value of the filter; the empty filter matches every
    document. *)
Definition matches (q : Filter) (d : Document) : bool :=
  bool_decide (map_Forall (λ k v, indexKey k d = v) q).

Definition collides (f : string) (ds : list Document) (d : Document) : bool :=
  existsb (λ d', bool_decide (indexKey f d' = indexKey f d)) ds.

Fixpoint hasDuplicates (f : string) (ds : list Document) : bool :=
  match ds with
  | [] => false
  | d :: ds' => collides f ds' d || hasDuplicates f ds'
  end.

Definition duplicateKeyError : Error :=
  {| message := "E11000 duplicate key error";
     code := Some 11000%Z; codeName := Some "DuplicateKey" |}.

(** Every call that reaches the driver is recorded, and then is served from
    the store or fails with the failure scheduled for it.  A call that
    fails has either not reached the store, or has been applied there
    before the failure (its response is lost): [lost] says which. *)
Definition driverCall {A : Type} (ev : DriverCall)
    (serve : World → Outcome A * World) (w : World) : Outcome A * World :=
  let w1 := record_call ev w in
  match faults w1 with
  | [] => serve w1
  | None :: fs => serve (set_faults fs w1)
  | Some e :: fs =>
    match lost w1 with
    | [] => (Throw e, set_faults fs w1)
    | false :: ls => (Throw e, set_lost ls (set_faults fs w1))
    | true :: ls => (Throw e, (serve (set_lost ls (set_faults fs w1))).2)
    end
  end.

(** [client.db(name)] and [db.collection(name)] only build handles. *)
Definition client_db (c : MongoClient) (name : string) : Db :=
  {| db_client := c; db_name := name |}.

Definition db_collection (d : Db) (name : string) : Collection :=
  {| coll_db := d; coll_name := name |}.

(** [client.close()].  What the driver does with later calls on a client
    it has closed is its own affair: it is in the schedule of failures. *)
Definition client_close (c : MongoClient) : World → Outcome unit * World :=
  driverCall (CallClose c) (λ w, (Return tt, w)).

(** [collection.createIndex({ [f]: 1 }, { unique: true })]. *)
Definition coll_createIndex (c : Collection) (f : string)
    : World → Outcome string * World :=
  driverCall (CallCreateIndex c f true) (λ w,
    let cl := lookupColl (store w) c in
    if bool_decide (f ∈ uniq cl) then (Return (f +:+ "_1"), w)
    else if hasDuplicates f (docs cl) then (Throw duplicateKeyError, w)
    else (Return (f +:+ "_1"),
          set_store (updateColl c {| docs := docs cl; uniq := {[f]} ∪ uniq cl |}
                       (store w)) w)).

(** [collection.findOne(q)]. *)
Definition coll_findOne (c : Collection) (q : Filter)
    : World → Outcome (option Document) * World :=
  driverCall (CallFindOne c q) (λ w,
    (Return (find (matches q) (docs (lookupColl (store w) c))), w)).

(** [_id] and every uniquely indexed field must stay unique. *)
Definition violatesUnique (cl : Coll) (d : Document) : bool :=
  existsb (λ f, collides f (docs cl) d) ("_id" :: elements (uniq cl)).

(** [collection.insertOne(d)]: the driver supplies [_id] when the document
    has none. *)
Definition coll_insertOne (c : Collection) (d : Document)
    : World → Outcome InsertOneResult * World :=
  driverCall (CallInsertOne c d) (λ w,
    let cl := lookupColl (store w) c in
    let '(d', w1) :=
      match d !! "_id" with
      | Some _ => (d, w)
      | None => (<["_id" := VObjectId (nextOid w)]> d,
                 set_nextOid (S (nextOid w)) w)
      end in
    if violatesUnique cl d'
    then (Throw duplicateKeyError, w1)
    else (Return {| ins_acknowledged := true;
                    insertedId := indexKey "_id" d' |},
          set_store (updateColl c {| docs := docs cl ++ [d']; uniq := uniq cl |}
                       (store w1)) w1)).

(** [collection.deleteMany(q)]. *)
Definition coll_deleteMany (c : Collection) (q : Filter)
    : World → Outcome DeleteResult * World :=
  driverCall (CallDeleteMany c q) (λ w,
    let cl := lookupColl (store w) c in
    let kept := filter (λ d, matches q d = false) (docs cl) in
    (Return {| del_acknowledged := true;
               deletedCount := length (docs cl) - length kept |},
     set_store (updateColl c {| docs := kept; uniq := uniq cl |} (store w)) w)).

(** ** The monad of the methods *)

(** A method runs on its receiver and on the world; it returns or throws,
    and in either case leaves both in a new state. *)
Record St := mkSt { this : DataBase; world : World }.

Definition Eff (A : Type) : Type := St → Outcome A * St.

Definition ret {A : Type} (a : A) : Eff A := λ s, (Return a, s).

Definition throw {A : Type} (e : Error) : Eff A := λ s, (Throw e, s).

Definition bind {A B : Type} (m : Eff A) (k : A → Eff B) : Eff B :=
  λ s, match m s with
       | (Return a, s1) => k a s1
       | (Throw e, s1) => (Throw e, s1)
       end.

(** [try { m } catch (error) { h error }] *)
Definition try_catch {A : Type} (m : Eff A) (h : Error → Eff A) : Eff A :=
  λ s, match m s with
       | (Return a, s1) => (Return a, s1)
       | (Throw e, s1) => h e s1
       end.

Notation "'let!' x ':=' m 'in' k" := (bind m (λ x, k))
  (at level 10, x name, m at level 100, k at level 200).
Notation "m >> k" := (bind m (λ _, k))
  (at level 100, k at level 200, right associativity).

Definition getThis : Eff DataBase := λ s, (Return (this s), s).

Definition set_client (c : option MongoClient) : Eff unit :=
  λ s, (Return tt,
        {| this := {| dbName := dbName (this s); client := c; db := db (this s) |};
           world := world s |}).

Definition set_db (d : option Db) : Eff unit :=
  λ s, (Return tt,
        {| this := {| dbName := dbName (this s); client := client (this s); db := d |};
           world := world s |}).

(** [await] of a driver call. *)
Definition await {A : Type} (call : World → Outcome A * World) : Eff A :=
  λ s, let '(r, w) := call (world s) in (r, {| this := this s; world := w |}).

(** [await clientPromise]: the promise is module-level and settles once. *)
Definition await_clientPromise : Eff MongoClient :=
  λ s, let w := record_call AwaitClientPromise (world s) in
       (clientPromise w, {| this := this s; world := w |}).

Definition console_log (m : Message) : Eff unit :=
  λ s, (Return tt, {| this := this s; world := print LvlLog m (world s) |}).

Definition console_warn (m : Message) : Eff unit :=
  λ s, (Return tt, {| this := this s; world := print LvlWarn m (world s) |}).

Definition console_error (m : Message) : Eff unit :=
  λ s, (Return tt, {| this := this s; world := print LvlError m (world s) |}).

(** Truthiness of a nullable object reference. *)
Definition truthy {A : Type} (o : option A) : bool :=
  match o with Some _ => true | None => false end.

(** A loop over an array, one awaited step after the other. *)
Fixpoint forEach {A : Type} (f : A → Eff unit) (l : list A) : Eff unit :=
  match l with
  | [] => ret tt
  | x :: l' => f x >> forEach f l'
  end.

(** ** Promises started together *)

(** An async call that has run up to its first suspension point is
    represented by what remains of it: the continuation that runs when the
    response arrives. *)
Definition Promise (A : Type) : Type := Eff A.

(** [array.map(x => f(x))] where [f] is async: every call runs, in array
    order, up to its first [await]. *)
Fixpoint mapStart {A B : Type} (f : A → Eff (Promise B)) (l : list A)
    : Eff (list (Promise B)) :=
  match l with
  | [] => ret []
  | x :: l' => let! p := f x in let! ps := mapStart f l' in ret (p :: ps)
  end.

(** The order in which the responses of [n] requests in flight arrive:
    first the requests the scheduler names, each once, then the others in
    the order they were sent.  Every request is answered exactly once. *)
Definition arrivalOrder (named : list nat) (n : nat) : list nat :=
  let first := filter (λ i, i < n) (remove_dups named) in
  first ++ list_difference (seq 0 n) first.

(** The scheduler's choice for the group of requests awaited next. *)
Definition takeArrival : Eff (list nat) :=
  λ s, (Return (default [] (head (arrivals (world s)))),
        {| this := this s;
           world := set_arrivals (tail (arrivals (world s))) (world s) |}).

(** The continuations run, one after the other, in the order [order]
    of their responses; each ends by fulfilling or rejecting its promise. *)
Fixpoint settleAll {A : Type} (ps : list (Promise A)) (order : list nat)
    : Eff (list (nat * Outcome A)) :=
  match order with
  | [] => ret []
  | i :: order' =>
    match ps !! i with
    | None => settleAll ps order'
    | Some p =>
      λ s, let '(o, s1) := p s in
           let '(r, s2) := settleAll ps order' s1 in
           (match r with
            | Return os => Return ((i, o) :: os)
            | Throw e => Throw e
            end, s2)
    end
  end.

(** The first promise to have been rejected. *)
Fixpoint firstRejection {A : Type} (os : list (nat * Outcome A))
    : option Error :=
  match os with
  | [] => None
  | (_, Throw e) :: _ => Some e
  | (_, Return _) :: os' => firstRejection os'
  end.

(** The value promise [j] was fulfilled with. *)
Fixpoint fulfilledWith {A : Type} (j : nat) (os : list (nat * Outcome A))
    : option A :=
  match os with
  | [] => None
  | (i, o) :: os' =>
    if decide (i = j)
    then match o with Return a => Some a | Throw _ => None end
    else fulfilledWith j os'
  end.

(** [await Promise.all(ps)]: every continuation runs when its response
    arrives, in the order the scheduler chooses, and a rejection does not
    stop the continuations of the responses that arrive after it.  The
    caller resumes with the first rejection to arrive, or, when there is
    none, with the values in the order of [ps]; it is resumed here once
    the responses are in, so that what the late continuations print comes
    before what the caller prints next. *)
Definition Promise_all {A : Type} (ps : list (Promise A)) : Eff (list A) :=
  let! named := takeArrival in
  let! os := settleAll ps (arrivalOrder named (length ps)) in
  match firstRejection os with
  | Some e => throw e
  | None => ret (omap (λ j, fulfilledWith j os) (seq 0 (length ps)))
  end.

(** ** The methods of [DataBase] *)

Definition notInitializedError : Error :=
  {| message := "Database not initialized. Call initDb() first.";
     code := None; codeName := None |}.

(** [private getCollection(collectionName)] *)
Definition getCollection (collectionName : string) : Eff Collection :=
  let! t := getThis in
  match db t with
  | None => throw notInitializedError
  | Some d => ret (db_collection d collectionName)
  end.

(** [private buildQuery(field, value)] *)
Definition buildQuery (field : string) (value : Value) : Filter :=
  {[ field := value ]}.

(** [private async connectDb()] *)
Definition connectDb : Eff unit :=
  let! t := getThis in
  if truthy (client t) && truthy (db t) then
    console_log (MsgAlreadyConnected (dbName t))
  else
    try_catch
      (let! c := await_clientPromise in
       set_client (Some c) >>
       set_db (Some (client_db c (dbName t))) >>
       console_log (MsgConnected (dbName t)))
      (λ error,
         console_error (MsgFailedToConnect (dbName t) error) >>
         throw error).

(** The same method cut at its [await]: the part that runs when the method
    is called, up to the point where it waits for [clientPromise], and the
    continuation that runs once the promise has answered. *)
Definition connectDb_resume (response : Outcome MongoClient) : Promise unit :=
  let! t := getThis in
  try_catch
    (match response with
     | Return c =>
       set_client (Some c) >>
       set_db (Some (client_db c (dbName t))) >>
       console_log (MsgConnected (dbName t))
     | Throw error => throw error
     end)
    (λ error,
       console_error (MsgFailedToConnect (dbName t) error) >>
       throw error).

Definition connectDb_start : Eff (Promise unit) :=
  let! t := getThis in
  if truthy (client t) && truthy (db t) then
    console_log (MsgAlreadyConnected (dbName t)) >>
    ret (ret tt)
  else
    λ s, let '(response, s1) := await_clientPromise s in
         (Return (connectDb_resume response), s1).

(** [private async disconnectDb()] *)
Definition disconnectDb : Eff unit :=
  let! t := getThis in
  match client t with
  | None => console_log MsgNoActiveConnection
  | Some c =>
    try_catch
      (await (client_close c) >>
       console_log (MsgDisconnected (dbName t)) >>
       set_client None >>
       set_db None)
      (λ error,
         console_error (MsgFailedToDisconnect (dbName t) error) >>
         throw error)
  end.

(** [error.code === 85 || error.codeName === 'IndexOptionsConflict'] *)
Definition isIndexConflict (error : Error) : bool :=
  bool_decide (code error = Some 85%Z)
  || bool_decide (codeName error = Some "IndexOptionsConflict").

(** The [catch] block of [createUniqueIndex]. *)
Definition createUniqueIndex_catch (fieldName collectionName : string)
    (error : Error) : Eff unit :=
  if isIndexConflict error then
    console_warn (MsgIndexAlreadyExists fieldName collectionName)
  else
    console_error (MsgErrorCreatingIndex fieldName collectionName error) >>
    throw error.

(** [private async createUniqueIndex(fieldName, collectionName)] *)
Definition createUniqueIndex (fieldName collectionName : string) : Eff unit :=
  try_catch
    (let! collection := getCollection collectionName in
     await (coll_createIndex collection fieldName) >>
     console_log (MsgUniqueIndexCreated fieldName collectionName))
    (createUniqueIndex_catch fieldName collectionName).

(** The same method cut at its [await]: the part that runs when the method
    is called, which issues the request, and the continuation that runs on
    the response. *)
Definition createUniqueIndex_resume (fieldName collectionName : string)
    (response : Outcome string) : Promise unit :=
  match response with
  | Return _ => console_log (MsgUniqueIndexCreated fieldName collectionName)
  | Throw error => createUniqueIndex_catch fieldName collectionName error
  end.

Definition createUniqueIndex_start (fieldName collectionName : string)
    : Eff (Promise unit) :=
  λ s, match getCollection collectionName s with
       | (Throw error, s1) =>
         match createUniqueIndex_catch fieldName collectionName error s1 with
         | (Return _, s2) => (Return (ret tt), s2)
         | (Throw e, s2) => (Return (throw e), s2)
         end
       | (Return collection, s1) =>
         let '(response, w) := coll_createIndex collection fieldName (world s1) in
         (Return (createUniqueIndex_resume fieldName collectionName response),
          {| this := this s1; world := w |})
       end.

(** [public async initDb(indexes, collectionName)] *)
Definition initDb (indexes : list string) (collectionName : string)
    : Eff (option Db) :=
  console_log MsgInitDB >>
  let! t := getThis in
  (if negb (truthy (db t)) then
     try_catch
       (connectDb >>
        console_log (MsgDatabaseConnected (dbName t)) >>
        let! ps := mapStart (λ field, createUniqueIndex_start field collectionName)
                indexes in
        Promise_all ps >>
        console_log (MsgIndexesCreated collectionName))
       (λ error,
          console_error (MsgErrorInitializingDatabase error) >>
          throw error)
   else
     console_log (MsgAlreadyInitialized (dbName t))) >>
  let! t' := getThis in
  ret (db t').

(** [public async initCollection(indexes, collectionName)] *)
Definition initCollection (indexes : list string) (collectionName : string)
    : Eff (option Db) :=
  let! t := getThis in
  (if negb (truthy (db t)) then connectDb else ret tt) >>
  try_catch
    (forEach (λ field, createUniqueIndex field collectionName) indexes)
    (λ error,
       console_error (MsgErrorInitializingCollection error) >>
       throw error) >>
  let! t' := getThis in
  ret (db t').

(** [public async documentExists(field, value, collectionName)] *)
Definition documentExists (field : string) (value : Value)
    (collectionName : string) : Eff bool :=
  let! t := getThis in
  (if negb (truthy (db t)) then connectDb else ret tt) >>
  try_catch
    (let! collection := getCollection collectionName in
     let query := buildQuery field value in
     let! document := await (coll_findOne collection query) in
     ret (truthy document))
    (λ error,
       console_error
         (MsgErrorCheckingExistence field value collectionName error) >>
       throw error).

(** [public async addDocument(collectionName, document)] *)
Definition addDocument (collectionName : string) (document : Document)
    : Eff InsertOneResult :=
  let! t := getThis in
  (if negb (truthy (db t)) then connectDb else ret tt) >>
  try_catch
    (let! collection := getCollection collectionName in
     let! result := await (coll_insertOne collection document) in
     console_log (MsgDocumentInserted collectionName (insertedId result)) >>
     ret result)
    (λ error,
       console_error (MsgErrorInserting collectionName error) >>
       throw error).

(** [public async removeAllDocuments(collectionName)] *)
Definition removeAllDocuments (collectionName : string) : Eff DeleteResult :=
  let! t := getThis in
  (if negb (truthy (db t)) then connectDb else ret tt) >>
  try_catch
    (let! collection := getCollection collectionName in
     let! result := await (coll_deleteMany collection ∅) in
     console_log (MsgDeleted (deletedCount result) collectionName) >>
     ret result)
    (λ error,
       console_error (MsgErrorDeleting collectionName error) >>
       throw error).

(** ** The singleton registry *)

(** Objects of the class live in a heap and are named by their position;
    the static field [DataBase.instance] holds such a name once it has been
    assigned. *)
Record Process := mkProcess {
  heap : list DataBase;
  instance : option nat
}.

Definition initialProcess : Process := {| heap := []; instance := None |}.

(** [private constructor(private dbName: string)] with the two field
    initialisers. *)
Definition new_DataBase (name : string) : DataBase :=
  {| dbName := name; client := None; db := None |}.

(** [public static getInstance(dbName)] *)
Definition getInstance (name : string) (p : Process) : nat * Process :=
  match instance p with
  | None =>
    let r := length (heap p) in
    (r, {| heap := heap p ++ [new_DataBase name]; instance := Some r |})
  | Some r => (r, p)
  end.

(** * Vocabulary of the statements *)

(** ** Worlds and handles *)

(** Appending console lines to a world. *)
Definition prints (ls : list (Level * Message)) (w : World) : World :=
  {| clientPromise := clientPromise w; store := store w; faults := faults w;
     lost := lost w; arrivals := arrivals w; nextOid := nextOid w;
     trace := trace w; console := console w ++ ls |}.

(** Replacing the world of a state. *)
Definition withWorld (s : St) (w : World) : St :=
  {| this := this s; world := w |}.

(** The failure scheduled for the next driver call, if any. *)
Definition nextFault (w : World) : option Error :=
  match faults w with
  | Some e :: _ => Some e
  | _ => None
  end.

(** The documents stored under a collection handle. *)
Definition stored (w : World) (h : Collection) : list Document :=
  docs (lookupColl (store w) h).

(** The handle a lazily connecting method works on: built from the [db]
    field when it is set, and otherwise from the client that
    [clientPromise] resolves to. *)
Definition handleOf (s : St) (collectionName : string) : option Collection :=
  match db (this s) with
  | Some d => Some (db_collection d collectionName)
  | None =>
    match clientPromise (world s) with
    | Return c => Some (db_collection (client_db c (dbName (this s))) collectionName)
    | Throw _ => None
    end
  end.

(** The fields of a reachable receiver agree with each other and with the
    settled [clientPromise]. *)
Definition consistent (s : St) : Prop :=
  (∀ c, client (this s) = Some c → clientPromise (world s) = Return c) ∧
  (∀ d, db (this s) = Some d →
        client (this s) = Some (db_client d) ∧ db_name d = dbName (this s)).

(** The world once a call has been recorded and its slot of the failure
    schedule consumed. *)
Definition afterCall (ev : DriverCall) (w : World) : World :=
  match faults w with
  | [] => record_call ev w
  | _ :: fs => set_faults fs (record_call ev w)
  end.

(** The world once a call that fails has been recorded and its slots of
    the two schedules consumed. *)
Definition afterFault (ev : DriverCall) (w : World) : World :=
  match lost w with
  | [] => afterCall ev w
  | _ :: ls => set_lost ls (afterCall ev w)
  end.

(** The next call, if it fails, fails after it was applied. *)
Definition wasApplied (w : World) : bool :=
  match lost w with
  | true :: _ => true
  | _ => false
  end.

(** The receiver and world right after a successful [connectDb] that found
    no [db] handle. *)
Definition connectedState (s : St) (c : MongoClient) : St :=
  {| this := {| dbName := dbName (this s); client := Some c;
                db := Some (client_db c (dbName (this s))) |};
     world := print LvlLog (MsgConnected (dbName (this s)))
                (record_call AwaitClientPromise (world s)) |}.

(** The receiver and world right after a failed [connectDb]. *)
Definition connectFailedState (s : St) (e : Error) : St :=
  withWorld s (print LvlError (MsgFailedToConnect (dbName (this s)) e)
                 (record_call AwaitClientPromise (world s))).

(** The document as it is stored: with the [_id] the driver generates
    when the caller gave none. *)
Definition withId (w : World) (d : Document) : Document :=
  match d !! "_id" with
  | Some _ => d
  | None => <["_id" := VObjectId (nextOid w)]> d
  end.

(** The driver is about to serve the insert and the document violates no
    unique key of the collection. *)
Definition accepts (w : World) (h : Collection) (d : Document) : bool :=
  match nextFault w with
  | Some _ => false
  | None =>
    negb (violatesUnique (lookupColl (store w) h) (withId w d))
  end.

(** The calls a lazily connecting method adds in front of its request. *)
Definition connectCalls (s : St) : list DriverCall :=
  if truthy (db (this s)) then [] else [AwaitClientPromise].

(** ** Index requests *)

(** What the driver can tell of a world: the settled promise, the store,
    the failures to come, the identifier counter and the calls so far. *)
Definition driverView (w : World) :=
  (clientPromise w, store w, faults w, nextOid w, trace w).

(** The requests for [fields], sent one after the other without waiting:
    the responses, and the world once all of them have been handled. *)
Fixpoint issueAll (h : Collection) (fields : list string) (w : World)
    : list (Outcome string) * World :=
  match fields with
  | [] => ([], w)
  | f :: fs =>
    let '(r, w1) := coll_createIndex h f w in
    let '(rs, w2) := issueAll h fs w1 in
    (r :: rs, w2)
  end.

(** A response is fatal unless it is a success or the index conflict. *)
Definition fatal (r : Outcome string) : option Error :=
  match r with
  | Return _ => None
  | Throw e => if isIndexConflict e then None else Some e
  end.

Fixpoint firstFatal (rs : list (Outcome string)) : option Error :=
  match rs with
  | [] => None
  | r :: rs' =>
    match fatal r with
    | Some e => Some e
    | None => firstFatal rs'
    end
  end.

(** The requests for [fields], each sent once the previous response is in,
    up to the first fatal response. *)
Fixpoint issueSeq (h : Collection) (fields : list string) (w : World)
    : option Error * World :=
  match fields with
  | [] => (None, w)
  | f :: fs =>
    let '(r, w1) := coll_createIndex h f w in
    match fatal r with
    | Some e => (Some e, w1)
    | None => issueSeq h fs w1
    end
  end.

(** The first fatal response to arrive, when the responses arrive in the
    order [order]. *)
Fixpoint firstFatalIn (order : list nat) (rs : list (Outcome string))
    : option Error :=
  match order with
  | [] => None
  | i :: order' =>
    match rs !! i ≫= fatal with
    | Some e => Some e
    | None => firstFatalIn order' rs
    end
  end.

(** The arrival order the scheduler has chosen for the next group of [n]
    requests awaited together. *)
Definition nextArrival (w : World) (n : nat) : list nat :=
  arrivalOrder (default [] (head (arrivals w))) n.

(** The world once the scheduler's choice has been consumed. *)
Definition afterArrival (w : World) : World :=
  set_arrivals (tail (arrivals w)) w.

(** ** Runs of a process *)

(** A computation that leaves [dbName] as it found it. *)
Definition keepsName {A : Type} (m : Eff A) : Prop :=
  ∀ s, dbName (this (m s).2) = dbName (this s).

(** The public instance methods. *)
Inductive Method :=
| MInitDb (indexes : list string) (collectionName : string)
| MInitCollection (indexes : list string) (collectionName : string)
| MDocumentExists (field : string) (value : Value) (collectionName : string)
| MAddDocument (collectionName : string) (document : Document)
| MRemoveAllDocuments (collectionName : string).

(** The receiver and world a call leaves behind. *)
Definition perform (m : Method) (s : St) : St :=
  match m with
  | MInitDb i c => (initDb i c s).2
  | MInitCollection i c => (initCollection i c s).2
  | MDocumentExists f v c => (documentExists f v c s).2
  | MAddDocument c d => (addDocument c d s).2
  | MRemoveAllDocuments c => (removeAllDocuments c s).2
  end.

(** What the rest of the program can do: ask for the instance, or call a
    public method on it and await its result.  A step is a whole call: runs
    of [step] are the runs in which every call is awaited before the next
    one is made, and calls that overlap at an [await] are not among them. *)
Inductive step : Process * World → Process * World → Prop :=
| step_getInstance name p w :
    step (p, w) ((getInstance name p).2, w)
| step_method m r o p w :
    instance p = Some r →
    heap p !! r = Some o →
    step (p, w)
         ({| heap := <[r := this (perform m {| this := o; world := w |})]> (heap p);
             instance := instance p |},
          world (perform m {| this := o; world := w |})).

(** At most one object, and the static field names it. *)
Definition singleton (p : Process) : Prop :=
  match instance p with
  | None => heap p = []
  | Some r => r = 0 ∧ length (heap p) = 1
  end.

(** Once the instance exists, its name in the heap and its [dbName] stay. *)
Definition boundTo (r : nat) (name : string) (p : Process) : Prop :=
  instance p = Some r ∧ ∃ o, heap p !! r = Some o ∧ dbName o = name.

(** A computation that keeps the receiver consistent with the world. *)
Definition keepsConsistent {A : Type} (m : Eff A) : Prop :=
  ∀ s, consistent s → consistent (m s).2.

(** Every object in the heap is consistent with the world. *)
Definition heapConsistent (x : Process * World) : Prop :=
  ∀ r o, heap x.1 !! r = Some o → consistent {| this := o; world := x.2 |}.

(** ** Concrete receivers and worlds *)

(** A process configured with a client that connected, an empty store and a
    driver that schedules no failure. *)
Definition exClient : MongoClient := {| client_id := 0 |}.

Definition exDb : Db := client_db exClient "pgc".

Definition exUsers : Collection := db_collection exDb "User".

Definition exWorld : World :=
  {| clientPromise := Return exClient; store := ∅; faults := [];
     lost := []; arrivals := []; nextOid := 0; trace := []; console := [] |}.

(** A receiver fresh from the constructor, and one that has connected. *)
Definition exFresh : St := {| this := new_DataBase "pgc"; world := exWorld |}.

Definition exConnected : St :=
  {| this := {| dbName := "pgc"; client := Some exClient; db := Some exDb |};
     world := exWorld |}.

(** A driver whose next call fails with a network error. *)
Definition exNetworkError : Error :=
  {| message := "connection reset"; code := None; codeName := None |}.

Definition exFailing : St :=
  {| this := this exConnected;
     world := set_faults [Some exNetworkError] exWorld |}.

Definition exDocument : Document := {[ "email" := VString "a@x.com" ]}.

Definition exOther : Document := {[ "email" := VString "b@x.com" ]}.

(** The receiver once both of two calls of [connectDb] that overlap are
    waiting for [clientPromise]. *)
Definition bothWaiting (s : St) : St :=
  withWorld s (record_call AwaitClientPromise
                 (record_call AwaitClientPromise (world s))).

(** A collection that holds one document, and one that holds two. *)
Definition exStored : St := (addDocument "User" exDocument exFresh).2.

Definition exTwoUsers : St := (addDocument "User" exOther exStored).2.

(** The store's report that an index exists already, once recognisable
    by its code and once by its code name only. *)
Definition exConflictByCode : Error :=
  {| message := "index already exists"; code := Some 85%Z; codeName := None |}.

Definition exConflictByName : Error :=
  {| message := "index already exists"; code := None;
     codeName := Some "IndexOptionsConflict" |}.

(** A connected receiver whose driver answers the next request with
    error [e]. *)
Definition exAnswering (e : Error) : St :=
  {| this := this exConnected; world := set_faults [Some e] exWorld |}.

(** A connected receiver whose driver serves the next request and
    answers the one after it with error [e]. *)
Definition exAnsweringSecond (e : Error) : St :=
  {| this := this exConnected; world := set_faults [None; Some e] exWorld |}.

(** A second failure of the driver. *)
Definition exTimeout : Error :=
  {| message := "operation timed out"; code := Some 50%Z;
     codeName := Some "MaxTimeMSExpired" |}.

(** A fresh receiver whose driver fails two index requests, the response
    to the second arriving first. *)
Definition exOutOfOrder : St :=
  {| this := new_DataBase "pgc";
     world := set_arrivals [[1; 0]]
                (set_faults [Some exNetworkError; Some exTimeout] exWorld) |}.

(** The same driver with the responses arriving in the order of the
    requests. *)
Definition exInOrder : St :=
  {| this := new_DataBase "pgc";
     world := set_faults [Some exNetworkError; Some exTimeout] exWorld |}.



(** The collection of two documents, with a driver that applies the next
    request and then fails it with a network error. *)
Definition exLostResponse : St :=
  {| this := this exTwoUsers;
     world := set_lost [true]
                (set_faults [Some exNetworkError] (world exTwoUsers)) |}.

(** ** Outcomes and requests *)

(** The error a call ends with, if it throws. *)
Definition failure {A : Type} (r : Outcome A) : option Error :=
  match r with
  | Return _ => None
  | Throw e => Some e
  end.

(** The error a public method ends with, if it throws. *)
Definition fails (m : Method) (s : St) : option Error :=
  match m with
  | MInitDb i c => failure (initDb i c s).1
  | MInitCollection i c => failure (initCollection i c s).1
  | MDocumentExists f v c => failure (documentExists f v c s).1
  | MAddDocument c d => failure (addDocument c d s).1
  | MRemoveAllDocuments c => failure (removeAllDocuments c s).1
  end.

(** The driver calls that are requests on a collection, as opposed to
    awaiting [clientPromise] or closing the client. *)
Definition isRequest (ev : DriverCall) : bool :=
  match ev with
  | CallCreateIndex _ _ _ | CallFindOne _ _
  | CallInsertOne _ _ | CallDeleteMany _ _ => true
  | AwaitClientPromise | CallClose _ => false
  end.

(** Both fields of the receiver are set. *)
Definition connected (s : St) : Prop :=
  is_Some (client (this s)) ∧ is_Some (db (this s)).

(** A computation that, on a connected receiver, leaves the receiver and
    [clientPromise] alone and reaches the driver through requests only. *)
Definition steady {A : Type} (m : Eff A) : Prop :=
  ∀ s, connected s →
    this (m s).2 = this s ∧
    clientPromise (world (m s).2) = clientPromise (world s) ∧
    ∃ evs, trace (world (m s).2) = trace (world s) ++ evs ∧
           Forall (λ ev, isRequest ev = true) evs.

(** Two handles that name the same stored collection. *)
Definition sameCollection (h h' : Collection) : Prop :=
  (db_name (coll_db h), coll_name h) = (db_name (coll_db h'), coll_name h').

(** The receiver once it has connected to client [cl]. *)
Definition connectedTo (name : string) (cl : MongoClient) : DataBase :=
  {| dbName := name; client := Some cl; db := Some (client_db cl name) |}.

(** What holds of a process that started without an instance, asked for
    one under [name] in world [w], and runs with a [clientPromise] that
    resolved to [cl]: one object, either still as constructed with nothing
    sent, or connected to [cl] after one await and requests only. *)
Definition runInv (name : string) (cl : MongoClient) (w : World)
    (x : Process * World) : Prop :=
  instance x.1 = Some 0 ∧
  clientPromise x.2 = Return cl ∧
  ∃ o evs, heap x.1 = [o] ∧ trace x.2 = trace w ++ evs ∧
    ((o = new_DataBase name ∧ evs = []) ∨
     (o = connectedTo name cl ∧
      ∃ reqs, evs = AwaitClientPromise :: reqs ∧
              Forall (λ ev, isRequest ev = true) reqs)).

(** What holds of a process that started without an instance, asked for
    one under [name] in world [w], and runs with a [clientPromise] that was
    rejected: one object, still as constructed, an untouched store, and
    nothing but awaits on the driver's side. *)
Definition rejectedInv (name : string) (e : Error) (w : World)
    (x : Process * World) : Prop :=
  instance x.1 = Some 0 ∧
  clientPromise x.2 = Throw e ∧
  heap x.1 = [new_DataBase name] ∧
  store x.2 = store w ∧
  ∃ evs, trace x.2 = trace w ++ evs ∧
         Forall (λ ev, ev = AwaitClientPromise) evs.

(** A world whose [clientPromise] was rejected, and a receiver in it. *)
Definition exRejected : St :=
  {| this := new_DataBase "pgc";
     world := {| clientPromise := Throw exNetworkError; store := ∅;
                 faults := []; lost := []; arrivals := []; nextOid := 0;
                 trace := []; console := [] |} |}.

(** A fresh receiver with a driver that serves its first request and fails
    the second. *)
Definition exFlaky : St :=
  {| this := new_DataBase "pgc";
     world := set_faults [None; Some exNetworkError] exWorld |}.

(** A connected receiver whose collection has a unique index on [email]. *)
Definition exIndexed : St := (initCollection ["email"] "User" exFresh).2.

(** * Properties *)

(** ** Basic facts *)

Lemma prints_nil w : prints [] w = w.
Proof. destruct w; unfold prints; simpl. by rewrite app_nil_r. Qed.

Lemma prints_prints l1 l2 w : prints l2 (prints l1 w) = prints (l1 ++ l2) w.
Proof. unfold prints; simpl. by rewrite app_assoc. Qed.

Lemma print_prints l m w : print l m w = prints [(l, m)] w.
Proof. reflexivity. Qed.

Lemma St_eta (s : St) : {| this := this s; world := world s |} = s.
Proof. by destruct s. Qed.

(** ** C7: the collection accessor *)

Lemma getCollection_None name s :
  db (this s) = None → getCollection name s = (Throw notInitializedError, s).
Proof. intros H. unfold getCollection, bind, getThis. by rewrite H. Qed.

Lemma getCollection_Some name s d :
  db (this s) = Some d →
  getCollection name s = (Return (db_collection d name), s).
Proof. intros H. unfold getCollection, bind, getThis. by rewrite H. Qed.

(** C7. With no [db] handle, [getCollection] throws the "not initialized"
    error at once: the receiver and the world are left exactly as they
    were, so no connect was attempted, and the error is one that
    [createUniqueIndex] does not take for an index conflict.  With a [db]
    handle it returns the collection handle built from that very handle and
    the given name, again without touching anything. *)
Theorem getCollection_spec (name : string) (s : St) :
  (db (this s) = None →
     getCollection name s = (Throw notInitializedError, s)) ∧
  (∀ d, db (this s) = Some d →
     getCollection name s
       = (Return {| coll_db := d; coll_name := name |}, s)) ∧
  message notInitializedError
    = "Database not initialized. Call initDb() first." ∧
  isIndexConflict notInitializedError = false ∧
  notInitializedError ≠ duplicateKeyError.
Proof.
  split; [apply getCollection_None |].
  split; [apply getCollection_Some |].
  done.
Qed.

(** ** C6: connecting *)

Lemma connectDb_connected s c d :
  client (this s) = Some c → db (this s) = Some d →
  connectDb s
    = (Return tt, withWorld s (print LvlLog (MsgAlreadyConnected (dbName (this s)))
                                 (world s))).
Proof.
  intros Hc Hd. unfold connectDb, bind, getThis. by rewrite Hc, Hd.
Qed.

Lemma connectDb_fresh s :
  truthy (client (this s)) && truthy (db (this s)) = false →
  connectDb s =
    match clientPromise (world s) with
    | Return c =>
      (Return tt,
       {| this := {| dbName := dbName (this s); client := Some c;
                     db := Some (client_db c (dbName (this s))) |};
          world := print LvlLog (MsgConnected (dbName (this s)))
                     (record_call AwaitClientPromise (world s)) |})
    | Throw e =>
      (Throw e,
       withWorld s (print LvlError (MsgFailedToConnect (dbName (this s)) e)
                      (record_call AwaitClientPromise (world s))))
    end.
Proof.
  intros H. unfold connectDb, bind, getThis. rewrite H.
  unfold try_catch, bind, await_clientPromise. simpl.
  by destruct (clientPromise (world s)).
Qed.

Lemma connectDb_None s :
  db (this s) = None →
  connectDb s =
    match clientPromise (world s) with
    | Return c =>
      (Return tt,
       {| this := {| dbName := dbName (this s); client := Some c;
                     db := Some (client_db c (dbName (this s))) |};
          world := print LvlLog (MsgConnected (dbName (this s)))
                     (record_call AwaitClientPromise (world s)) |})
    | Throw e =>
      (Throw e,
       withWorld s (print LvlError (MsgFailedToConnect (dbName (this s)) e)
                      (record_call AwaitClientPromise (world s))))
    end.
Proof.
  intros H. apply connectDb_fresh. rewrite H. by rewrite andb_false_r.
Qed.

(** Whenever [connectDb] returns, both fields are set. *)
Lemma connectDb_returns_connected s u s' :
  connectDb s = (Return u, s') →
  is_Some (client (this s')) ∧ is_Some (db (this s')).
Proof.
  destruct (truthy (client (this s)) && truthy (db (this s))) eqn:E.
  - apply andb_true_iff in E as [E1 E2].
    destruct (client (this s)) as [c|] eqn:Hc; [|done].
    destruct (db (this s)) as [d|] eqn:Hd; [|done].
    rewrite (connectDb_connected s c d Hc Hd). intros [= _ <-]. simpl.
    rewrite Hc, Hd. eauto.
  - rewrite (connectDb_fresh s E).
    destruct (clientPromise (world s)); intros [= _ <-]; simpl; eauto.
Qed.

(** C6. When the client and the db handle are both present, [connectDb]
    returns at once: the receiver (so both handle references) is unchanged,
    the driver sees no call (the record of calls, and with it the number of
    times [clientPromise] was awaited, is the same), the store and the
    schedule of the driver are untouched, and the only effect is one console
    line.  In particular a second [connectDb] after one that returned
    leaves the receiver and the record of driver calls as the first one
    left them. *)
Theorem connectDb_idempotent (s : St) :
  (∀ c d, client (this s) = Some c → db (this s) = Some d →
     ∃ s', connectDb s = (Return tt, s') ∧
           this s' = this s ∧
           client (this s') = Some c ∧ db (this s') = Some d ∧
           trace (world s') = trace (world s) ∧
           store (world s') = store (world s) ∧
           faults (world s') = faults (world s) ∧
           world s' = print LvlLog (MsgAlreadyConnected (dbName (this s)))
                        (world s)) ∧
  (∀ s1, connectDb s = (Return tt, s1) →
     ∃ s2, connectDb s1 = (Return tt, s2) ∧
           this s2 = this s1 ∧
           trace (world s2) = trace (world s1) ∧
           store (world s2) = store (world s1)).
Proof.
  split.
  - intros c d Hc Hd. eexists.
    split; [exact (connectDb_connected s c d Hc Hd)|].
    simpl. by rewrite Hc, Hd.
  - intros s1 H1.
    destruct (connectDb_returns_connected _ _ _ H1) as [[c Hc] [d Hd]].
    eexists. split; [exact (connectDb_connected s1 c d Hc Hd)|]. done.
Qed.

(** ** C10: disconnecting *)

Lemma disconnectDb_None s :
  client (this s) = None →
  disconnectDb s = (Return tt, withWorld s (print LvlLog MsgNoActiveConnection (world s))).
Proof. intros H. unfold disconnectDb, bind, getThis. by rewrite H. Qed.

Lemma disconnectDb_Some s c :
  client (this s) = Some c →
  disconnectDb s =
    match client_close c (world s) with
    | (Return _, w1) =>
      (Return tt,
       {| this := {| dbName := dbName (this s); client := None; db := None |};
          world := print LvlLog (MsgDisconnected (dbName (this s))) w1 |})
    | (Throw e, w1) =>
      (Throw e,
       withWorld s (print LvlError (MsgFailedToDisconnect (dbName (this s)) e) w1))
    end.
Proof.
  intros H. unfold disconnectDb, bind, getThis. rewrite H.
  unfold try_catch, bind, await. simpl.
  by destruct (client_close c (world s)) as [[u|e] w1].
Qed.

(** C10. Without a client [disconnectDb] returns without calling the
    driver and without changing the receiver (one console line is the
    only effect).  With a client it calls [close] on it; when [close]
    fails, that error is rethrown and the receiver is unchanged: the client
    is still there, and so is the db handle if there was one; when [close]
    succeeds, and only then, both fields are reset to null. *)
Theorem disconnectDb_spec (s : St) :
  (client (this s) = None →
     ∃ s', disconnectDb s = (Return tt, s') ∧ this s' = this s ∧
           trace (world s') = trace (world s) ∧
           store (world s') = store (world s) ∧
           faults (world s') = faults (world s)) ∧
  (∀ c, client (this s) = Some c →
     ∃ r s', disconnectDb s = (r, s') ∧
       trace (world s') = trace (world s) ++ [CallClose c] ∧
       match r with
       | Throw e =>
         nextFault (world s) = Some e ∧
         this s' = this s ∧ client (this s') = Some c ∧
         (∀ d, db (this s) = Some d → db (this s') = Some d)
       | Return _ =>
         nextFault (world s) = None ∧
         client (this s') = None ∧ db (this s') = None ∧
         dbName (this s') = dbName (this s)
       end).
Proof.
  split.
  - intros H. eexists. split; [by apply disconnectDb_None|]. done.
  - intros c H. rewrite (disconnectDb_Some s c H).
    unfold client_close, driverCall, nextFault. simpl.
    destruct (faults (world s)) as [|[e|] fs]; simpl.
    + do 2 eexists. split; [done|]. done.
    + destruct (lost (world s)) as [|[|] ls]; simpl;
        do 2 eexists; (split; [done|]); simpl; by rewrite H.
    + do 2 eexists. split; [done|]. done.
Qed.

(** ** The driver's side of a call *)

Lemma driverCall_unfold {A : Type} ev (serve : World → Outcome A * World) w :
  driverCall ev serve w =
    match nextFault w with
    | Some e =>
      (Throw e,
       if wasApplied w then (serve (afterFault ev w)).2 else afterFault ev w)
    | None => serve (afterCall ev w)
    end.
Proof.
  unfold driverCall, nextFault, wasApplied, afterFault, afterCall. simpl.
  destruct (faults w) as [|[e|] fs]; try done.
  by destruct (lost w) as [|[|] ls].
Qed.

Lemma afterFault_store ev w : store (afterFault ev w) = store w.
Proof.
  unfold afterFault, afterCall. by destruct (lost w), (faults w).
Qed.

Lemma afterFault_trace ev w : trace (afterFault ev w) = trace w ++ [ev].
Proof.
  unfold afterFault, afterCall. by destruct (lost w), (faults w).
Qed.

Lemma afterFault_clientPromise ev w :
  clientPromise (afterFault ev w) = clientPromise w.
Proof.
  unfold afterFault, afterCall. by destruct (lost w), (faults w).
Qed.

Lemma afterFault_nextOid ev w : nextOid (afterFault ev w) = nextOid w.
Proof.
  unfold afterFault, afterCall. by destruct (lost w), (faults w).
Qed.

Lemma afterFault_prints ev ls w :
  afterFault ev (prints ls w) = prints ls (afterFault ev w).
Proof.
  unfold afterFault, afterCall. simpl. by destruct (lost w), (faults w).
Qed.

Lemma wasApplied_prints ls w : wasApplied (prints ls w) = wasApplied w.
Proof. reflexivity. Qed.

Lemma afterCall_store ev w : store (afterCall ev w) = store w.
Proof. unfold afterCall. by destruct (faults w). Qed.

Lemma afterCall_trace ev w : trace (afterCall ev w) = trace w ++ [ev].
Proof. unfold afterCall. by destruct (faults w). Qed.

Lemma afterCall_clientPromise ev w :
  clientPromise (afterCall ev w) = clientPromise w.
Proof. unfold afterCall. by destruct (faults w). Qed.

Lemma afterCall_nextOid ev w : nextOid (afterCall ev w) = nextOid w.
Proof. unfold afterCall. by destruct (faults w). Qed.

Lemma afterCall_prints ev ls w :
  afterCall ev (prints ls w) = prints ls (afterCall ev w).
Proof. unfold afterCall. simpl. by destruct (faults w). Qed.

Lemma nextFault_prints ls w : nextFault (prints ls w) = nextFault w.
Proof. reflexivity. Qed.

Lemma lookupColl_updateColl c cl st : lookupColl (updateColl c cl st) c = cl.
Proof. unfold lookupColl, updateColl. by rewrite lookup_insert_eq. Qed.

(** A served [createIndex] leaves the index in place, or fails on
    duplicate keys. *)
Lemma coll_createIndex_served c f w r w1 :
  nextFault w = None →
  coll_createIndex c f w = (r, w1) →
  match r with
  | Return _ => f ∈ uniq (lookupColl (store w1) c)
  | Throw e => e = duplicateKeyError ∧ store w1 = store w
  end.
Proof.
  intros Hn. unfold coll_createIndex. rewrite driverCall_unfold, Hn.
  case_bool_decide as Hin.
  - intros [= <- <-]. by rewrite afterCall_store in *.
  - destruct (hasDuplicates _ _).
    + intros [= <- <-]. by rewrite afterCall_store.
    + intros [= <- <-]. simpl. rewrite lookupColl_updateColl. simpl.
      set_solver.
Qed.

(** A [createIndex] on an indexed field that is not failed by the schedule
    is a no-op that succeeds. *)
Lemma coll_createIndex_again c f w :
  nextFault w = None →
  f ∈ uniq (lookupColl (store w) c) →
  coll_createIndex c f w
    = (Return (f +:+ "_1"), afterCall (CallCreateIndex c f true) w).
Proof.
  intros Hn Hin. unfold coll_createIndex. rewrite driverCall_unfold, Hn.
  rewrite afterCall_store. by rewrite bool_decide_true.
Qed.

Lemma coll_createIndex_fault c f w e :
  nextFault w = Some e →
  ∃ w1, coll_createIndex c f w = (Throw e, w1).
Proof.
  intros Hn. unfold coll_createIndex. rewrite driverCall_unfold, Hn.
  by eexists.
Qed.

Lemma coll_createIndex_trace c f w r w1 :
  coll_createIndex c f w = (r, w1) →
  trace w1 = trace w ++ [CallCreateIndex c f true].
Proof.
  unfold coll_createIndex. rewrite driverCall_unfold.
  destruct (nextFault w).
  - destruct (wasApplied w); intros [= <- <-];
      [|apply afterFault_trace].
    repeat case_match; simplify_eq/=; apply afterFault_trace.
  - repeat case_match; intros [= <- <-]; simpl; apply afterCall_trace.
Qed.

Lemma isIndexConflict_true e :
  isIndexConflict e = true ↔
  code e = Some 85%Z ∨ codeName e = Some "IndexOptionsConflict".
Proof.
  unfold isIndexConflict. rewrite orb_true_iff, !bool_decide_eq_true. done.
Qed.

Lemma isIndexConflict_false e :
  isIndexConflict e = false ↔
  code e ≠ Some 85%Z ∧ codeName e ≠ Some "IndexOptionsConflict".
Proof.
  unfold isIndexConflict. rewrite orb_false_iff, !bool_decide_eq_false. done.
Qed.

(** ** C3: creating one unique index *)

Lemma createUniqueIndex_None f c s :
  db (this s) = None →
  createUniqueIndex f c s
    = (Throw notInitializedError,
       withWorld s (print LvlError (MsgErrorCreatingIndex f c notInitializedError)
                      (world s))).
Proof.
  intros H. unfold createUniqueIndex, try_catch, bind.
  by rewrite (getCollection_None c s H).
Qed.

Lemma createUniqueIndex_Some f c s d :
  db (this s) = Some d →
  createUniqueIndex f c s =
    match coll_createIndex (db_collection d c) f (world s) with
    | (Return _, w1) =>
      (Return tt, withWorld s (print LvlLog (MsgUniqueIndexCreated f c) w1))
    | (Throw e, w1) =>
      if isIndexConflict e then
        (Return tt, withWorld s (print LvlWarn (MsgIndexAlreadyExists f c) w1))
      else
        (Throw e, withWorld s (print LvlError (MsgErrorCreatingIndex f c e) w1))
    end.
Proof.
  intros H. unfold createUniqueIndex, try_catch, bind.
  rewrite (getCollection_Some c s d H). unfold await.
  destruct (coll_createIndex _ _ _) as [[n|e] w1]; simpl; [done|].
  unfold createUniqueIndex_catch. by destruct (isIndexConflict e).
Qed.

(** The method is its start followed by its continuation. *)
Lemma createUniqueIndex_split f c s :
  createUniqueIndex f c s = (let! p := createUniqueIndex_start f c in p) s.
Proof.
  unfold bind, createUniqueIndex_start.
  destruct (db (this s)) as [d|] eqn:Hd.
  - rewrite (createUniqueIndex_Some f c s d Hd), (getCollection_Some c s d Hd).
    simpl. destruct (coll_createIndex _ _ _) as [[n|e] w1]; simpl; [done|].
    unfold createUniqueIndex_catch. by destruct (isIndexConflict e).
  - rewrite (createUniqueIndex_None f c s Hd), (getCollection_None c s Hd).
    reflexivity.
Qed.

(** C3. On a connected receiver [createUniqueIndex] sends one
    [createIndex] request and: returns when the driver reports success;
    returns as well, without raising, when the driver throws an error whose
    code is 85 or whose code name is IndexOptionsConflict, which is how the
    store reports that the index exists already; and rethrows the driver's
    error, the very same object, in every other case.  An error raised
    before the request (no [db] handle) is rethrown too.  Consequently,
    once a first request for an index has been served and has returned, a
    second request for the same index does not throw, whether the driver
    serves it or reports that the index exists. *)
Theorem createUniqueIndex_spec (fieldName collectionName : string) (s : St) :
  (∀ d r w1,
     db (this s) = Some d →
     coll_createIndex (db_collection d collectionName) fieldName (world s)
       = (r, w1) →
     ∃ s', this s' = this s ∧
       match r with
       | Return _ =>
         createUniqueIndex fieldName collectionName s = (Return tt, s')
       | Throw e =>
         (code e = Some 85%Z ∨ codeName e = Some "IndexOptionsConflict" →
          createUniqueIndex fieldName collectionName s = (Return tt, s')) ∧
         (code e ≠ Some 85%Z → codeName e ≠ Some "IndexOptionsConflict" →
          createUniqueIndex fieldName collectionName s = (Throw e, s'))
       end) ∧
  (db (this s) = None →
     ∃ s', createUniqueIndex fieldName collectionName s
             = (Throw notInitializedError, s')) ∧
  (∀ s1,
     createUniqueIndex fieldName collectionName s = (Return tt, s1) →
     nextFault (world s) = None →
     (∀ e, nextFault (world s1) = Some e →
           code e = Some 85%Z ∨ codeName e = Some "IndexOptionsConflict") →
     ∃ s2, createUniqueIndex fieldName collectionName s1 = (Return tt, s2)).
Proof.
  split; [|split].
  - intros d r w1 Hd Hc. rewrite (createUniqueIndex_Some _ _ s d Hd), Hc.
    destruct r as [n|e]; [eexists; split; last reflexivity; reflexivity|].
    destruct (isIndexConflict e) eqn:E.
    + apply isIndexConflict_true in E.
      exists (withWorld s (print LvlWarn
                (MsgIndexAlreadyExists fieldName collectionName) w1)).
      split; [reflexivity|]. split; [done|].
      intros H1 H2. by destruct E.
    + apply isIndexConflict_false in E as [H1 H2].
      exists (withWorld s (print LvlError
                (MsgErrorCreatingIndex fieldName collectionName e) w1)).
      split; [reflexivity|]. split; [|done]. by intros [?|?].
  - intros Hd. rewrite (createUniqueIndex_None _ _ s Hd). by eexists.
  - intros s1 H1 Hn Hnext.
    destruct (db (this s)) as [d|] eqn:Hd;
      [|by rewrite (createUniqueIndex_None _ _ s Hd) in H1].
    rewrite (createUniqueIndex_Some _ _ s d Hd) in H1.
    destruct (coll_createIndex _ _ (world s)) as [r w1] eqn:Hc.
    pose proof (coll_createIndex_served _ _ _ _ _ Hn Hc) as Hs.
    destruct r as [n|e].
    + injection H1 as <-. simpl in Hnext.
      rewrite (createUniqueIndex_Some _ _ (withWorld s _) d Hd). simpl.
      destruct (nextFault w1) as [e|] eqn:Hn1.
      * destruct (coll_createIndex_fault (db_collection d collectionName)
                    fieldName (print LvlLog
                                 (MsgUniqueIndexCreated fieldName collectionName)
                                 w1) e Hn1) as [w2 ->].
        rewrite (proj2 (isIndexConflict_true e)) by auto. by eexists.
      * rewrite coll_createIndex_again by done. by eexists.
    + destruct Hs as [-> _]. by vm_compute in H1.
Qed.

(** ** Lazy connect *)

(** The opening of every public method but [initDb]:
    [if (!this.db) { await this.connectDb(); }], then the rest. *)
Lemma lazy_connect_then {A : Type} (k : Eff A) (s : St) :
  (let! t := getThis in
   (if negb (truthy (db t)) then connectDb else ret tt) >> k) s =
    match db (this s) with
    | Some _ => k s
    | None =>
      match clientPromise (world s) with
      | Return c => k (connectedState s c)
      | Throw e => (Throw e, connectFailedState s e)
      end
    end.
Proof.
  unfold bind at 1. unfold getThis.
  destruct (db (this s)) as [d|] eqn:Hd; simpl.
  - unfold bind, ret. reflexivity.
  - unfold bind. rewrite (connectDb_None s Hd).
    by destruct (clientPromise (world s)).
Qed.

Lemma handleOf_Some_db s c d :
  db (this s) = Some d → handleOf s c = Some (db_collection d c).
Proof. unfold handleOf. by intros ->. Qed.

Lemma handleOf_connectedState s c cl :
  handleOf (connectedState s cl) c
    = Some (db_collection (client_db cl (dbName (this s))) c).
Proof. reflexivity. Qed.

Lemma handleOf_None_db s c cl :
  db (this s) = None → clientPromise (world s) = Return cl →
  handleOf s c = Some (db_collection (client_db cl (dbName (this s))) c).
Proof. unfold handleOf. by intros -> ->. Qed.

(** ** Filters *)

Lemma matches_buildQuery f v (d : Document) :
  matches (buildQuery f v) d = true ↔ indexKey f d = v.
Proof.
  unfold matches, buildQuery. rewrite bool_decide_eq_true.
  exact (map_Forall_singleton (λ k x, indexKey k d = x) f v).
Qed.

Lemma matches_empty (d : Document) : matches ∅ d = true.
Proof.
  unfold matches. apply bool_decide_eq_true.
  exact (map_Forall_empty (λ k x, indexKey k d = x)).
Qed.

(** Under a name without dots, a field that is present reads as its
    value; and a value other than null is read only from a field that is
    present. *)
Lemma indexKey_lookup f (d : Document) v :
  dotted f = false → d !! f = Some v → indexKey f d = v.
Proof. unfold indexKey. by intros -> ->. Qed.

Lemma indexKey_not_null f (d : Document) v :
  dotted f = false → v ≠ VNull →
  indexKey f d = v ↔ d !! f = Some v.
Proof.
  unfold indexKey. intros -> Hv. destruct (d !! f) as [x|]; simpl.
  - split; congruence.
  - split; [congruence|done].
Qed.

Lemma find_matches_buildQuery f v (ds : list Document) :
  truthy (find (matches (buildQuery f v)) ds) = true ↔
  ∃ d, d ∈ ds ∧ indexKey f d = v.
Proof.
  induction ds as [|d ds IH]; simpl.
  - split; [done|]. intros (d & Hd & _). by apply elem_of_nil in Hd.
  - destruct (matches (buildQuery f v) d) eqn:E; simpl.
    + split; [|done]. intros _. exists d. split; [left|].
      by apply matches_buildQuery.
    + rewrite IH. split.
      * intros (d' & Hin & Hv). exists d'. split; [by right|done].
      * intros (d' & Hin & Hv). apply elem_of_cons in Hin as [->|Hin].
        -- apply matches_buildQuery in Hv. congruence.
        -- eauto.
Qed.

Lemma filter_not_matches_empty (ds : list Document) :
  filter (λ d, matches ∅ d = false) ds = [].
Proof.
  induction ds as [|d ds IH]; [done|].
  rewrite filter_cons. rewrite matches_empty.
  destruct (decide (true = false)); [done|]. exact IH.
Qed.

(** ** What the driver answers to the three CRUD requests *)

Lemma coll_findOne_unfold h q w :
  coll_findOne h q w =
    match nextFault w with
    | Some e => (Throw e, afterFault (CallFindOne h q) w)
    | None => (Return (find (matches q) (stored w h)),
               afterCall (CallFindOne h q) w)
    end.
Proof.
  unfold coll_findOne. rewrite driverCall_unfold.
  destruct (nextFault w); [by destruct (wasApplied w)|].
  unfold stored. by rewrite afterCall_store.
Qed.

Lemma coll_deleteMany_all h w :
  coll_deleteMany h ∅ w =
    match nextFault w with
    | Some e =>
      (Throw e,
       if wasApplied w
       then set_store (updateColl h {| docs := [];
                                       uniq := uniq (lookupColl (store w) h) |}
                         (store w))
              (afterFault (CallDeleteMany h ∅) w)
       else afterFault (CallDeleteMany h ∅) w)
    | None =>
      (Return {| del_acknowledged := true;
                 deletedCount := length (stored w h) |},
       set_store (updateColl h {| docs := [];
                                  uniq := uniq (lookupColl (store w) h) |}
                    (store w))
         (afterCall (CallDeleteMany h ∅) w))
    end.
Proof.
  unfold coll_deleteMany. rewrite driverCall_unfold.
  destruct (nextFault w).
  - destruct (wasApplied w); [|done]. simpl.
    by rewrite afterFault_store, filter_not_matches_empty.
  - unfold stored.
    rewrite afterCall_store, filter_not_matches_empty. simpl.
    by rewrite Nat.sub_0_r.
Qed.

Lemma withId_lookup w (d : Document) k v :
  d !! k = Some v → withId w d !! k = Some v.
Proof.
  intros H. unfold withId. destruct (d !! "_id") eqn:E; [done|].
  rewrite lookup_insert_ne; [done|]. congruence.
Qed.

Lemma coll_insertOne_returns h d w r w1 :
  coll_insertOne h d w = (Return r, w1) →
  accepts w h d = true ∧
  insertedId r = indexKey "_id" (withId w d) ∧
  stored w1 h = stored w h ++ [withId w d] ∧
  trace w1 = trace w ++ [CallInsertOne h d] ∧
  clientPromise w1 = clientPromise w.
Proof.
  unfold coll_insertOne, accepts, withId, stored.
  rewrite driverCall_unfold. destruct (nextFault w); [done|].
  rewrite afterCall_store, afterCall_nextOid.
  destruct (d !! "_id") eqn:E;
    destruct (violatesUnique _ _) eqn:Ex; try done;
    intros [= <- <-]; cbn [store set_store set_nextOid trace clientPromise
                           insertedId negb];
    rewrite lookupColl_updateColl, ?afterCall_trace, ?afterCall_clientPromise;
    done.
Qed.

Lemma coll_insertOne_accepts h d w :
  accepts w h d = true →
  ∃ r w1, coll_insertOne h d w = (Return r, w1).
Proof.
  unfold coll_insertOne, accepts, withId, stored.
  rewrite driverCall_unfold. destruct (nextFault w); [done|].
  rewrite afterCall_store, afterCall_nextOid.
  intros Hacc. apply negb_true_iff in Hacc.
  destruct (d !! "_id") eqn:E; rewrite Hacc; by do 2 eexists.
Qed.

(** Whatever its outcome, an insert is one more call on the record; and
    an insert the driver fails throws the driver's error. *)
Lemma coll_insertOne_trace h d w :
  trace (coll_insertOne h d w).2 = trace w ++ [CallInsertOne h d].
Proof.
  unfold coll_insertOne. rewrite driverCall_unfold.
  destruct (nextFault w).
  - destruct (wasApplied w); simpl; [|apply afterFault_trace].
    destruct (d !! "_id"); destruct (violatesUnique _ _); simpl;
      apply afterFault_trace.
  - destruct (d !! "_id"); destruct (violatesUnique _ _); simpl;
      apply afterCall_trace.
Qed.

Lemma coll_insertOne_throws h d w e :
  nextFault w = Some e → (coll_insertOne h d w).1 = Throw e.
Proof.
  intros Hn. unfold coll_insertOne. by rewrite driverCall_unfold, Hn.
Qed.

(** ** The CRUD methods on a receiver with and without a [db] handle *)

Lemma documentExists_None f v c s :
  db (this s) = None →
  documentExists f v c s =
    match clientPromise (world s) with
    | Return cl => documentExists f v c (connectedState s cl)
    | Throw e => (Throw e, connectFailedState s e)
    end.
Proof.
  intros H. unfold documentExists at 1. rewrite lazy_connect_then, H.
  reflexivity.
Qed.

Lemma documentExists_Some f v c s d :
  db (this s) = Some d →
  documentExists f v c s =
    match coll_findOne (db_collection d c) (buildQuery f v) (world s) with
    | (Return document, w1) => (Return (truthy document), withWorld s w1)
    | (Throw e, w1) =>
      (Throw e, withWorld s (print LvlError (MsgErrorCheckingExistence f v c e) w1))
    end.
Proof.
  intros H. unfold documentExists. rewrite lazy_connect_then, H.
  unfold try_catch, bind. rewrite (getCollection_Some c s d H). unfold await.
  by destruct (coll_findOne _ _ _) as [[doc|e] w1].
Qed.

Lemma addDocument_None c doc s :
  db (this s) = None →
  addDocument c doc s =
    match clientPromise (world s) with
    | Return cl => addDocument c doc (connectedState s cl)
    | Throw e => (Throw e, connectFailedState s e)
    end.
Proof.
  intros H. unfold addDocument at 1. rewrite lazy_connect_then, H.
  reflexivity.
Qed.

Lemma addDocument_Some c doc s d :
  db (this s) = Some d →
  addDocument c doc s =
    match coll_insertOne (db_collection d c) doc (world s) with
    | (Return result, w1) =>
      (Return result,
       withWorld s (print LvlLog (MsgDocumentInserted c (insertedId result)) w1))
    | (Throw e, w1) =>
      (Throw e, withWorld s (print LvlError (MsgErrorInserting c e) w1))
    end.
Proof.
  intros H. unfold addDocument. rewrite lazy_connect_then, H.
  unfold try_catch, bind. rewrite (getCollection_Some c s d H). unfold await.
  by destruct (coll_insertOne _ _ _) as [[r|e] w1].
Qed.

Lemma removeAllDocuments_None c s :
  db (this s) = None →
  removeAllDocuments c s =
    match clientPromise (world s) with
    | Return cl => removeAllDocuments c (connectedState s cl)
    | Throw e => (Throw e, connectFailedState s e)
    end.
Proof.
  intros H. unfold removeAllDocuments at 1. rewrite lazy_connect_then, H.
  reflexivity.
Qed.

Lemma removeAllDocuments_Some c s d :
  db (this s) = Some d →
  removeAllDocuments c s =
    match coll_deleteMany (db_collection d c) ∅ (world s) with
    | (Return result, w1) =>
      (Return result,
       withWorld s (print LvlLog (MsgDeleted (deletedCount result) c) w1))
    | (Throw e, w1) =>
      (Throw e, withWorld s (print LvlError (MsgErrorDeleting c e) w1))
    end.
Proof.
  intros H. unfold removeAllDocuments. rewrite lazy_connect_then, H.
  unfold try_catch, bind. rewrite (getCollection_Some c s d H). unfold await.
  by destruct (coll_deleteMany _ _ _) as [[r|e] w1].
Qed.

(** *** [documentExists] *)

Lemma documentExists_returns f v c s b s' :
  documentExists f v c s = (Return b, s') →
  ∃ h, handleOf s c = Some h ∧
       db (this s') = Some (coll_db h) ∧
       nextFault (world s) = None ∧
       b = truthy (find (matches (buildQuery f v)) (stored (world s) h)) ∧
       store (world s') = store (world s) ∧
       trace (world s')
         = trace (world s) ++ connectCalls s ++ [CallFindOne h (buildQuery f v)].
Proof.
  assert (∀ s d, db (this s) = Some d →
            documentExists f v c s = (Return b, s') →
            db (this s') = Some d ∧
            nextFault (world s) = None ∧
            b = truthy (find (matches (buildQuery f v))
                          (stored (world s) (db_collection d c))) ∧
            store (world s') = store (world s) ∧
            trace (world s')
              = trace (world s) ++ [CallFindOne (db_collection d c) (buildQuery f v)])
    as Hconn.
  { clear s. intros s d Hd. rewrite (documentExists_Some f v c s d Hd).
    rewrite coll_findOne_unfold. destruct (nextFault (world s)); [done|].
    intros [= <- <-]. simpl. by rewrite afterCall_store, afterCall_trace. }
  destruct (db (this s)) as [d|] eqn:Hd.
  - intros H. destruct (Hconn s d Hd H) as (? & ? & ? & ? & ?).
    exists (db_collection d c). rewrite (handleOf_Some_db s c d Hd).
    unfold connectCalls. rewrite Hd. done.
  - rewrite (documentExists_None f v c s Hd).
    destruct (clientPromise (world s)) as [cl|e] eqn:Hp; [|done].
    intros H.
    destruct (Hconn (connectedState s cl) _ eq_refl H) as (? & ? & ? & ? & Ht).
    eexists. rewrite (handleOf_None_db s c cl Hd Hp).
    split; [done|]. unfold connectCalls. rewrite Hd.
    repeat split; try done. rewrite Ht. simpl. by rewrite <- app_assoc.
Qed.

Lemma documentExists_served f v c s h :
  handleOf s c = Some h →
  nextFault (world s) = None →
  ∃ s', documentExists f v c s
          = (Return (truthy (find (matches (buildQuery f v)) (stored (world s) h))),
             s').
Proof.
  unfold handleOf. intros Hh Hn.
  destruct (db (this s)) as [d|] eqn:Hd.
  - injection Hh as <-. rewrite (documentExists_Some f v c s d Hd).
    rewrite coll_findOne_unfold, Hn. by eexists.
  - rewrite (documentExists_None f v c s Hd).
    destruct (clientPromise (world s)) as [cl|e]; [|done].
    injection Hh as <-.
    rewrite (documentExists_Some f v c (connectedState s cl) _ eq_refl).
    rewrite coll_findOne_unfold. simpl.
    change (nextFault _) with (nextFault (world s)). rewrite Hn. by eexists.
Qed.

(** *** [addDocument] *)

Lemma addDocument_returns c doc s r s' :
  addDocument c doc s = (Return r, s') →
  ∃ h, handleOf s c = Some h ∧
       db (this s') = Some (coll_db h) ∧
       accepts (world s) h doc = true ∧
       insertedId r = indexKey "_id" (withId (world s) doc) ∧
       stored (world s') h = stored (world s) h ++ [withId (world s) doc] ∧
       trace (world s')
         = trace (world s) ++ connectCalls s ++ [CallInsertOne h doc].
Proof.
  assert (∀ s d, db (this s) = Some d →
            addDocument c doc s = (Return r, s') →
            db (this s') = Some d ∧
            accepts (world s) (db_collection d c) doc = true ∧
            insertedId r = indexKey "_id" (withId (world s) doc) ∧
            stored (world s') (db_collection d c)
              = stored (world s) (db_collection d c) ++ [withId (world s) doc] ∧
            trace (world s')
              = trace (world s) ++ [CallInsertOne (db_collection d c) doc])
    as Hconn.
  { clear s. intros s d Hd. rewrite (addDocument_Some c doc s d Hd).
    destruct (coll_insertOne _ _ _) as [[r'|e] w1] eqn:Hi; [|done].
    intros [= <- <-]. simpl.
    by destruct (coll_insertOne_returns _ _ _ _ _ Hi) as (? & ? & ? & ? & ?). }
  destruct (db (this s)) as [d|] eqn:Hd.
  - intros H. destruct (Hconn s d Hd H) as (? & ? & ? & ? & ?).
    exists (db_collection d c). rewrite (handleOf_Some_db s c d Hd).
    unfold connectCalls. rewrite Hd. done.
  - rewrite (addDocument_None c doc s Hd).
    destruct (clientPromise (world s)) as [cl|e] eqn:Hp; [|done].
    intros H.
    destruct (Hconn (connectedState s cl) _ eq_refl H) as (? & ? & ? & ? & Ht).
    eexists. rewrite (handleOf_None_db s c cl Hd Hp).
    split; [done|]. unfold connectCalls. rewrite Hd.
    repeat split; try done. rewrite Ht. simpl. by rewrite <- app_assoc.
Qed.

Lemma addDocument_accepted c doc s h :
  handleOf s c = Some h →
  accepts (world s) h doc = true →
  ∃ r s', addDocument c doc s = (Return r, s').
Proof.
  unfold handleOf. intros Hh Hacc.
  destruct (db (this s)) as [d|] eqn:Hd.
  - injection Hh as <-. rewrite (addDocument_Some c doc s d Hd).
    destruct (coll_insertOne_accepts _ _ _ Hacc) as (r & w1 & ->).
    by do 2 eexists.
  - rewrite (addDocument_None c doc s Hd).
    destruct (clientPromise (world s)) as [cl|e]; [|done].
    injection Hh as <-.
    rewrite (addDocument_Some c doc (connectedState s cl) _ eq_refl).
    assert (accepts (world (connectedState s cl))
              (db_collection (client_db cl (dbName (this s))) c) doc = true)
      as Hacc' by exact Hacc.
    destruct (coll_insertOne_accepts _ _ _ Hacc') as (r & w1 & ->).
    by do 2 eexists.
Qed.

(** *** [removeAllDocuments] *)

Lemma removeAllDocuments_returns c s r s' :
  removeAllDocuments c s = (Return r, s') →
  ∃ h, handleOf s c = Some h ∧
       db (this s') = Some (coll_db h) ∧
       nextFault (world s) = None ∧
       deletedCount r = length (stored (world s) h) ∧
       stored (world s') h = [] ∧
       trace (world s')
         = trace (world s) ++ connectCalls s ++ [CallDeleteMany h ∅].
Proof.
  assert (∀ s d, db (this s) = Some d →
            removeAllDocuments c s = (Return r, s') →
            db (this s') = Some d ∧
            nextFault (world s) = None ∧
            deletedCount r = length (stored (world s) (db_collection d c)) ∧
            stored (world s') (db_collection d c) = [] ∧
            trace (world s')
              = trace (world s) ++ [CallDeleteMany (db_collection d c) ∅])
    as Hconn.
  { clear s. intros s d Hd. rewrite (removeAllDocuments_Some c s d Hd).
    rewrite coll_deleteMany_all. destruct (nextFault (world s)); [done|].
    intros [= <- <-]. simpl. rewrite afterCall_trace.
    repeat split; try done. unfold stored at 1. simpl.
    by rewrite lookupColl_updateColl. }
  destruct (db (this s)) as [d|] eqn:Hd.
  - intros H. destruct (Hconn s d Hd H) as (? & ? & ? & ? & ?).
    exists (db_collection d c). rewrite (handleOf_Some_db s c d Hd).
    unfold connectCalls. rewrite Hd. done.
  - rewrite (removeAllDocuments_None c s Hd).
    destruct (clientPromise (world s)) as [cl|e] eqn:Hp; [|done].
    intros H.
    destruct (Hconn (connectedState s cl) _ eq_refl H) as (? & ? & ? & ? & Ht).
    eexists. rewrite (handleOf_None_db s c cl Hd Hp).
    split; [done|]. unfold connectCalls. rewrite Hd.
    repeat split; try done. rewrite Ht. simpl. by rewrite <- app_assoc.
Qed.

Lemma removeAllDocuments_served c s h :
  handleOf s c = Some h →
  nextFault (world s) = None →
  ∃ r s', removeAllDocuments c s = (Return r, s').
Proof.
  unfold handleOf. intros Hh Hn.
  destruct (db (this s)) as [d|] eqn:Hd.
  - rewrite (removeAllDocuments_Some c s d Hd).
    rewrite coll_deleteMany_all, Hn. by do 2 eexists.
  - rewrite (removeAllDocuments_None c s Hd).
    destruct (clientPromise (world s)) as [cl|e]; [|done].
    rewrite (removeAllDocuments_Some c (connectedState s cl) _ eq_refl).
    rewrite coll_deleteMany_all. simpl.
    change (nextFault _) with (nextFault (world s)). rewrite Hn.
    by do 2 eexists.
Qed.

Lemma handleOf_eta s c h :
  handleOf s c = Some h → db_collection (coll_db h) c = h.
Proof.
  unfold handleOf. destruct (db (this s)); [by intros [= <-]|].
  destruct (clientPromise (world s)); [by intros [= <-]|done].
Qed.

(** ** C4: the existence check *)

(** C4. Take a field name that the store reads as a field (not as an
    operator).  [documentExists] works on the handle [handleOf] names: the
    [db] field when it is set, and otherwise the one a connect produces, in
    which case [clientPromise] is awaited before the query is sent.  Every
    time it returns, the receiver has a [db] handle, the store is
    unchanged, the one request sent is [findOne] with the filter
    [{ field: value }], and the result is true exactly when some stored
    document of the collection reads as [value] under [field]; for a name
    without dots and a value other than null, that is when some stored
    document has [value] under [field].  It does return whenever a handle
    can be had and the driver serves the query; on an empty collection the
    result is then false; and after an [addDocument] that returned for a
    document with [value] under [field], a name without dots, the result
    is true. *)
Theorem documentExists_spec (field : string) (value : Value)
    (collectionName : string) (s : St) :
  isOperator field = false →
  (∀ b s',
     documentExists field value collectionName s = (Return b, s') →
     ∃ h, handleOf s collectionName = Some h ∧
       (b = true ↔
          ∃ doc, doc ∈ stored (world s) h ∧ indexKey field doc = value) ∧
       (dotted field = false → value ≠ VNull →
        (b = true ↔
           ∃ doc, doc ∈ stored (world s) h ∧ doc !! field = Some value)) ∧
       is_Some (db (this s')) ∧
       store (world s') = store (world s) ∧
       trace (world s')
         = trace (world s) ++ connectCalls s
             ++ [CallFindOne h (buildQuery field value)]) ∧
  (∀ h, handleOf s collectionName = Some h →
     nextFault (world s) = None →
     ∃ b s', documentExists field value collectionName s = (Return b, s')) ∧
  (∀ h, handleOf s collectionName = Some h →
     nextFault (world s) = None →
     stored (world s) h = [] →
     ∃ s', documentExists field value collectionName s = (Return false, s')) ∧
  (∀ doc r s1,
     addDocument collectionName doc s = (Return r, s1) →
     dotted field = false →
     doc !! field = Some value →
     nextFault (world s1) = None →
     ∃ s2, documentExists field value collectionName s1 = (Return true, s2)).
Proof.
  intros _. split; [|split; [|split]].
  - intros b s' H.
    apply documentExists_returns in H
      as (h & Hh & Hdb & _ & -> & Hst & Htr).
    exists h. rewrite find_matches_buildQuery, Hdb.
    split; [done|]. split; [done|]. split; [|eauto].
    intros Hdot Hnull. split.
    + intros (doc & Hin & Hv). exists doc. split; [done|].
      by apply (indexKey_not_null field doc value Hdot Hnull).
    + intros (doc & Hin & Hv). exists doc. split; [done|].
      by apply indexKey_lookup.
  - intros h Hh Hn.
    destruct (documentExists_served field value _ s h Hh Hn) as (s' & ->).
    eauto.
  - intros h Hh Hn Hempty.
    destruct (documentExists_served field value _ s h Hh Hn) as (s' & ->).
    rewrite Hempty. simpl. eauto.
  - intros doc r s1 Hadd Hdot Hv Hn.
    apply addDocument_returns in Hadd
      as (h & Hh & Hdb & _ & _ & Hst & _).
    assert (handleOf s1 collectionName = Some h) as Hh1.
    { rewrite (handleOf_Some_db _ _ _ Hdb). f_equal.
      by apply (handleOf_eta s). }
    destruct (documentExists_served field value _ s1 h Hh1 Hn) as (s2 & ->).
    assert (truthy (find (matches (buildQuery field value))
                      (stored (world s1) h)) = true) as ->; [|eauto].
    apply find_matches_buildQuery. exists (withId (world s) doc).
    split; [|by apply indexKey_lookup, withId_lookup].
    rewrite Hst. apply elem_of_app. right. by left.
Qed.

(** ** C8: deleting every document *)

(** C8. [removeAllDocuments] works on the handle [handleOf] names,
    awaiting [clientPromise] first when the [db] field is not set, and sends
    one [deleteMany] with the empty filter.  Every time it returns, the
    reported deleted count is the number of documents the collection held,
    the collection holds none afterwards, and from then on
    [documentExists] on that collection can only answer false, for every
    field and value, and does answer false when the driver serves the
    query.  It does return whenever a handle can be had and the driver
    serves the request. *)
Theorem removeAllDocuments_spec (collectionName : string) (s : St) :
  (∀ r s',
     removeAllDocuments collectionName s = (Return r, s') →
     ∃ h, handleOf s collectionName = Some h ∧
       deletedCount r = length (stored (world s) h) ∧
       stored (world s') h = [] ∧
       trace (world s')
         = trace (world s) ++ connectCalls s ++ [CallDeleteMany h ∅] ∧
       (∀ field value b s'',
          documentExists field value collectionName s' = (Return b, s'') →
          b = false) ∧
       (∀ field value,
          nextFault (world s') = None →
          ∃ s'', documentExists field value collectionName s'
                   = (Return false, s''))) ∧
  (∀ h, handleOf s collectionName = Some h →
     nextFault (world s) = None →
     ∃ r s', removeAllDocuments collectionName s = (Return r, s') ∧
             deletedCount r = length (stored (world s) h)).
Proof.
  split.
  - intros r s' H.
    apply removeAllDocuments_returns in H
      as (h & Hh & Hdb & _ & Hcount & Hst & Htr).
    assert (handleOf s' collectionName = Some h) as Hh'.
    { rewrite (handleOf_Some_db _ _ _ Hdb). f_equal.
      by apply (handleOf_eta s). }
    exists h. repeat split; try done.
    + intros field value b s'' Hex.
      apply documentExists_returns in Hex as (h' & Hh2 & _ & _ & -> & _).
      rewrite Hh' in Hh2. injection Hh2 as <-. by rewrite Hst.
    + intros field value Hn.
      destruct (documentExists_served field value _ s' h Hh' Hn) as (s'' & ->).
      rewrite Hst. simpl. eauto.
  - intros h Hh Hn.
    destruct (removeAllDocuments_served _ s h Hh Hn) as (r & s' & Hr).
    exists r, s'. split; [done|].
    apply removeAllDocuments_returns in Hr as (h' & Hh2 & _ & _ & -> & _).
    rewrite Hh in Hh2. by injection Hh2 as <-.
Qed.

(** ** C9: inserting after a disconnect *)

(** What the reconnect after a disconnect consists of.  Take a receiver
    whose client is the one [clientPromise] resolved to, and a
    [disconnectDb] on it that returned: the driver has closed that client
    and both fields are null.  A following [addDocument] awaits the same
    settled [clientPromise], so both fields are set again to the client
    that was closed, and the insert is sent on it: no other call reaches
    the driver, and the outcome is the driver's answer to that insert.
    Hence, if the driver refuses the insert, [addDocument] rethrows, and
    since the fields are set, the next [addDocument] does not even await:
    it sends the insert on the same client again.  If the driver accepts
    the insert, [addDocument] returns with the document stored. *)
Lemma reconnect_after_disconnect (collectionName : string)
    (document : Document) (s : St) (cl : MongoClient) :
  client (this s) = Some cl →
  clientPromise (world s) = Return cl →
  ∀ s1, disconnectDb s = (Return tt, s1) →
  let d := client_db cl (dbName (this s)) in
  let h := db_collection d collectionName in
  client (this s1) = None ∧ db (this s1) = None ∧
  trace (world s1) = trace (world s) ++ [CallClose cl] ∧
  (∀ r s2, addDocument collectionName document s1 = (r, s2) →
     r = (coll_insertOne h document (world (connectedState s1 cl))).1 ∧
     client (this s2) = Some cl ∧ db (this s2) = Some d ∧
     trace (world s2)
       = trace (world s1) ++ [AwaitClientPromise; CallInsertOne h document]) ∧
  (∀ e, nextFault (world s1) = Some e →
     ∃ s2, addDocument collectionName document s1 = (Throw e, s2) ∧
       ∀ e', nextFault (world s2) = Some e' →
         ∃ s3, addDocument collectionName document s2 = (Throw e', s3) ∧
           client (this s3) = Some cl ∧
           trace (world s3)
             = trace (world s2) ++ [CallInsertOne h document]) ∧
  (accepts (world s1) h document = true →
     ∃ r s2, addDocument collectionName document s1 = (Return r, s2) ∧
       client (this s2) = Some cl ∧ db (this s2) = Some d ∧
       stored (world s2) h
         = stored (world s1) h ++ [withId (world s1) document]).
Proof.
  intros Hc Hp s1 Hdis d h.
  rewrite (disconnectDb_Some s cl Hc) in Hdis.
  destruct (client_close cl (world s)) as [[u|e] w1] eqn:Hclose; [|done].
  injection Hdis as <-.
  assert (clientPromise w1 = Return cl ∧
          trace w1 = trace (world s) ++ [CallClose cl]) as [Hp1 Ht1].
  { unfold client_close in Hclose. rewrite driverCall_unfold in Hclose.
    destruct (nextFault (world s)); [done|]. injection Hclose as _ <-.
    by rewrite afterCall_clientPromise, afterCall_trace. }
  set (s1 := {| this := _; world := _ |}).
  assert (∀ r s2, addDocument collectionName document s1 = (r, s2) →
            r = (coll_insertOne h document (world (connectedState s1 cl))).1 ∧
            this s2 = this (connectedState s1 cl) ∧
            trace (world s2)
              = trace (world s1)
                  ++ [AwaitClientPromise; CallInsertOne h document]) as Hrun.
  { intros r s2. rewrite (addDocument_None _ _ s1 eq_refl). simpl.
    rewrite Hp1.
    rewrite (addDocument_Some _ _ (connectedState s1 cl) _ eq_refl).
    change (coll_insertOne ?a document ?b)
      with (coll_insertOne h document (world (connectedState s1 cl))).
    pose proof (coll_insertOne_trace h document
                  (world (connectedState s1 cl))) as Ht.
    destruct (coll_insertOne h document _) as [r' w2] eqn:Hi.
    simpl in Ht.
    destruct r'; cbn beta iota; intros [= <- <-]; simpl; rewrite Ht;
      by rewrite <- app_assoc. }
  split; [done|]. split; [done|]. split; [exact Ht1|]. split; [|split].
  - intros r s2 H. destruct (Hrun r s2 H) as (-> & Hthis & ->).
    by rewrite Hthis.
  - intros e Hn.
    destruct (Hrun _ _ (surjective_pairing
                          (addDocument collectionName document s1)))
      as (Hr & Hthis & _).
    rewrite (coll_insertOne_throws h document _ e) in Hr by exact Hn.
    set (s2 := (addDocument collectionName document s1).2) in *.
    exists s2. split; [rewrite <- Hr; apply surjective_pairing|].
    intros e' Hn'.
    assert (db (this s2) = Some d) as Hd2 by (by rewrite Hthis).
    rewrite (addDocument_Some _ _ s2 d Hd2).
    change (db_collection d collectionName) with h.
    pose proof (coll_insertOne_trace h document (world s2)) as Ht2.
    pose proof (coll_insertOne_throws h document (world s2) e' Hn') as Hr2.
    destruct (coll_insertOne h document (world s2)) as [r' w3].
    simpl in Ht2, Hr2. subst r'. eexists. split; [done|]. simpl.
    by rewrite Hthis, Ht2.
  - intros Hacc.
    destruct (addDocument_accepted collectionName document s1 h) as (r & s2 & Hr).
    { unfold handleOf. simpl. by rewrite Hp1. }
    { done. }
    exists r, s2. split; [done|].
    destruct (Hrun _ _ Hr) as (_ & Hthis & _). rewrite Hthis.
    split; [done|]. split; [done|].
    apply addDocument_returns in Hr as (h' & Hh & _ & _ & _ & Hst & _).
    unfold handleOf in Hh. simpl in Hh. rewrite Hp1 in Hh.
    injection Hh as <-. exact Hst.
Qed.

(** ** Index creation as the driver sees it *)

Lemma driverView_prints ls w : driverView (prints ls w) = driverView w.
Proof. reflexivity. Qed.

Lemma coll_createIndex_prints h f ls w :
  coll_createIndex h f (prints ls w) =
    let '(r, w1) := coll_createIndex h f w in (r, prints ls w1).
Proof.
  unfold coll_createIndex. rewrite !driverCall_unfold.
  rewrite nextFault_prints, afterCall_prints, afterFault_prints,
    wasApplied_prints.
  destruct (nextFault w); [destruct (wasApplied w); [|done]|]; simpl;
    repeat case_match; simplify_eq; done.
Qed.

Lemma issueAll_prints h fs ls w :
  issueAll h fs (prints ls w) =
    let '(rs, w1) := issueAll h fs w in (rs, prints ls w1).
Proof.
  revert w. induction fs as [|f fs IH]; intros w; simpl; [done|].
  rewrite coll_createIndex_prints.
  destruct (coll_createIndex h f w) as [r w1]. rewrite IH.
  by destruct (issueAll h fs w1).
Qed.

Lemma issueSeq_prints h fs ls w :
  issueSeq h fs (prints ls w) =
    let '(e, w1) := issueSeq h fs w in (e, prints ls w1).
Proof.
  revert w. induction fs as [|f fs IH]; intros w; simpl; [done|].
  rewrite coll_createIndex_prints.
  destruct (coll_createIndex h f w) as [r w1].
  destruct (fatal r); [done|]. apply IH.
Qed.

Lemma issueAll_length h fs w : length (issueAll h fs w).1 = length fs.
Proof.
  revert w. induction fs as [|f fs IH]; intros w; simpl; [done|].
  destruct (coll_createIndex h f w) as [r w1].
  specialize (IH w1). destruct (issueAll h fs w1). simpl in *. by rewrite IH.
Qed.

Lemma issueAll_trace h fs w :
  trace (issueAll h fs w).2
    = trace w ++ map (λ f, CallCreateIndex h f true) fs.
Proof.
  revert w. induction fs as [|f fs IH]; intros w; simpl.
  - by rewrite app_nil_r.
  - destruct (coll_createIndex h f w) as [r w1] eqn:Hc.
    specialize (IH w1). destruct (issueAll h fs w1). simpl in *.
    rewrite IH, (coll_createIndex_trace _ _ _ _ _ Hc).
    by rewrite <- app_assoc.
Qed.

(** Sending the requests one at a time reports the same first fatal
    response as sending them all; it has sent a prefix of the requests; and
    when no response is fatal, the two leave the same world. *)
Lemma issueSeq_issueAll h fs w :
  (issueSeq h fs w).1 = firstFatal (issueAll h fs w).1 ∧
  (firstFatal (issueAll h fs w).1 = None →
     (issueSeq h fs w).2 = (issueAll h fs w).2) ∧
  trace (issueSeq h fs w).2 `prefix_of` trace (issueAll h fs w).2.
Proof.
  revert w. induction fs as [|f fs IH]; intros w; simpl; [done|].
  destruct (coll_createIndex h f w) as [r w1] eqn:Hc.
  specialize (IH w1). pose proof (issueAll_trace h fs w1) as Ht.
  destruct (issueAll h fs w1) as [rs w2]. simpl in *.
  destruct (fatal r) as [e|]; simpl.
  - split; [done|]. split; [done|]. rewrite Ht. by apply prefix_app_r.
  - done.
Qed.

(** *** The concurrent fan-out *)

Lemma createUniqueIndex_start_Some f c s d :
  db (this s) = Some d →
  createUniqueIndex_start f c s =
    let '(r, w1) := coll_createIndex (db_collection d c) f (world s) in
    (Return (createUniqueIndex_resume f c r), withWorld s w1).
Proof.
  intros Hd. unfold createUniqueIndex_start.
  by rewrite (getCollection_Some c s d Hd).
Qed.

Lemma mapStart_createUniqueIndex c fs s d :
  db (this s) = Some d →
  mapStart (λ field, createUniqueIndex_start field c) fs s =
    let '(rs, w1) := issueAll (db_collection d c) fs (world s) in
    (Return (zip_with (λ f r, createUniqueIndex_resume f c r) fs rs),
     withWorld s w1).
Proof.
  revert s. induction fs as [|f fs IH]; intros s Hd; simpl.
  - by destruct s.
  - unfold bind. rewrite (createUniqueIndex_start_Some f c s d Hd).
    destruct (coll_createIndex _ f (world s)) as [r w1].
    rewrite (IH (withWorld s w1) Hd). simpl.
    by destruct (issueAll _ fs w1) as [rs w2].
Qed.

(** Every request is answered exactly once, whatever the scheduler
    names. *)
Lemma elem_of_arrivalOrder named n i : i ∈ arrivalOrder named n ↔ i < n.
Proof.
  unfold arrivalOrder. rewrite elem_of_app, list_elem_of_difference,
    list_elem_of_filter, elem_of_seq.
  destruct (decide (i ∈ remove_dups named)); split.
  - intros [[? ?]|[? ?]]; lia.
  - intros. by left.
  - intros [[? ?]|[? ?]]; lia.
  - intros. right. split; [lia|tauto].
Qed.

Lemma arrivalOrder_NoDup named n : NoDup (arrivalOrder named n).
Proof.
  unfold arrivalOrder. apply NoDup_app. split; [|split].
  - apply NoDup_filter, NoDup_remove_dups.
  - intros i Hi. rewrite list_elem_of_difference. tauto.
  - apply NoDup_list_difference, NoDup_seq.
Qed.

Lemma arrivalOrder_Permutation named n : arrivalOrder named n ≡ₚ seq 0 n.
Proof.
  apply NoDup_Permutation.
  - apply arrivalOrder_NoDup.
  - apply NoDup_seq.
  - intros i. rewrite elem_of_arrivalOrder, elem_of_seq. lia.
Qed.

Lemma list_difference_nil {A : Type} `{EqDecision A} (l : list A) :
  list_difference l [] = l.
Proof. induction l as [|x l IH]; [done|]. simpl. by rewrite IH. Qed.

(** A scheduler that names nothing delivers the responses in the order
    of the requests. *)
Lemma arrivalOrder_nil n : arrivalOrder [] n = seq 0 n.
Proof. unfold arrivalOrder. simpl. apply list_difference_nil. Qed.

Lemma nextArrival_nil w n : arrivals w = [] → nextArrival w n = seq 0 n.
Proof. unfold nextArrival. intros ->. apply arrivalOrder_nil. Qed.

Lemma firstFatalIn_None order rs :
  firstFatalIn order rs = None ↔ ∀ i, i ∈ order → rs !! i ≫= fatal = None.
Proof.
  induction order as [|i order IH]; simpl.
  - split; [|done]. intros _ i Hi. by apply elem_of_nil in Hi.
  - destruct (rs !! i ≫= fatal) as [e|] eqn:E.
    + split; [done|]. intros H. rewrite <- E. apply H. left.
    + rewrite IH. split.
      * intros H j Hj. apply elem_of_cons in Hj as [->|Hj]; [done|by apply H].
      * intros H j Hj. apply H. by right.
Qed.

Lemma firstFatalIn_Some order rs e :
  firstFatalIn order rs = Some e →
  ∃ i r, i ∈ order ∧ rs !! i = Some r ∧ fatal r = Some e.
Proof.
  induction order as [|i order IH]; simpl; [done|].
  destruct (rs !! i) as [r|] eqn:E; simpl.
  - destruct (fatal r) as [e'|] eqn:F.
    + intros [= <-]. exists i, r. split; [left|done].
    + intros H. destruct (IH H) as (j & r' & Hj & Hr & Hf).
      exists j, r'. split; [by right|done].
  - intros H. destruct (IH H) as (j & r' & Hj & Hr & Hf).
    exists j, r'. split; [by right|done].
Qed.

Lemma firstFatal_None rs :
  firstFatal rs = None ↔ ∀ i, rs !! i ≫= fatal = None.
Proof.
  induction rs as [|r rs IH]; simpl; [done|].
  destruct (fatal r) as [e|] eqn:F.
  - split; [done|]. intros H. specialize (H 0). simpl in H. congruence.
  - rewrite IH. split.
    + intros H [|i]; simpl; [done|apply H].
    + intros H i. apply (H (S i)).
Qed.

(** Whatever the order of arrival, some response is fatal in it exactly
    when some response is fatal. *)
Lemma firstFatalIn_arrivalOrder_None named rs :
  firstFatalIn (arrivalOrder named (length rs)) rs = None ↔
  firstFatal rs = None.
Proof.
  rewrite firstFatalIn_None, firstFatal_None. split.
  - intros H i. destruct (decide (i < length rs)) as [Hi|Hi].
    + by apply H, elem_of_arrivalOrder.
    + rewrite lookup_ge_None_2; [done|lia].
  - intros H i _. apply H.
Qed.

Lemma firstFatalIn_seq pre rs :
  firstFatalIn (seq (length pre) (length rs)) (pre ++ rs) = firstFatal rs.
Proof.
  revert pre. induction rs as [|r rs IH]; intros pre; simpl; [done|].
  rewrite lookup_app_r, Nat.sub_diag by lia. simpl.
  destruct (fatal r); [done|].
  specialize (IH (pre ++ [r])). rewrite length_app, <- app_assoc in IH.
  simpl in IH. by rewrite Nat.add_1_r in IH.
Qed.

(** When the responses arrive in the order of the requests, the first
    fatal one to arrive is the first fatal one. *)
Lemma firstFatalIn_in_order rs :
  firstFatalIn (seq 0 (length rs)) rs = firstFatal rs.
Proof. exact (firstFatalIn_seq [] rs). Qed.

(** The continuations of the index requests only print; each rejects
    its promise exactly when its response is fatal. *)
Lemma settleAll_resume c fs rs order s :
  length rs = length fs →
  ∃ os ls,
    settleAll (zip_with (λ f r, createUniqueIndex_resume f c r) fs rs) order s
      = (Return os, withWorld s (prints ls (world s))) ∧
    firstRejection os = firstFatalIn order rs.
Proof.
  intros Hlen. revert s. induction order as [|i order IH]; intros s; simpl.
  - exists [], []. rewrite prints_nil. by destruct s.
  - rewrite lookup_zip_with.
    destruct (fs !! i) as [f|] eqn:Ef; simpl.
    + destruct (rs !! i) as [r|] eqn:Er; simpl.
      2:{ apply lookup_lt_Some in Ef. apply lookup_ge_None in Er. lia. }
      destruct r as [n|e]; simpl.
      * unfold console_log. simpl.
        destruct (IH (withWorld s (print LvlLog (MsgUniqueIndexCreated f c)
                                      (world s)))) as (os & ls & Hrun & Hos).
        unfold withWorld in Hrun. simpl in Hrun. rewrite Hrun.
        do 2 eexists. simpl. rewrite print_prints, prints_prints.
        split; [reflexivity|done].
      * unfold createUniqueIndex_catch. destruct (isIndexConflict e); simpl.
        -- unfold console_warn. simpl.
           destruct (IH (withWorld s (print LvlWarn (MsgIndexAlreadyExists f c)
                                        (world s)))) as (os & ls & Hrun & Hos).
           unfold withWorld in Hrun. simpl in Hrun. rewrite Hrun.
           do 2 eexists. simpl. rewrite print_prints, prints_prints.
           split; [reflexivity|done].
        -- unfold bind, console_error, throw. simpl.
           destruct (IH (withWorld s
                           (print LvlError (MsgErrorCreatingIndex f c e)
                              (world s)))) as (os & ls & Hrun & Hos).
           unfold withWorld in Hrun. simpl in Hrun. rewrite Hrun.
           do 2 eexists. simpl. rewrite print_prints, prints_prints.
           split; [reflexivity|done].
    + assert (rs !! i = None) as ->.
      { apply lookup_ge_None. apply lookup_ge_None in Ef. lia. }
      simpl. apply IH.
Qed.

Lemma afterArrival_prints ls w :
  afterArrival (prints ls w) = prints ls (afterArrival w).
Proof. reflexivity. Qed.

(** [Promise.all] over the continuations of the index requests: the
    caller resumes with the first fatal response to arrive. *)
Lemma Promise_all_resume c fs rs s :
  length rs = length fs →
  ∃ us ls,
    Promise_all (zip_with (λ f r, createUniqueIndex_resume f c r) fs rs) s =
      (match firstFatalIn (nextArrival (world s) (length fs)) rs with
       | None => Return us
       | Some e => Throw e
       end,
       withWorld s (prints ls (afterArrival (world s)))).
Proof.
  intros Hlen. unfold Promise_all, bind at 1, takeArrival.
  rewrite length_zip_with_l_eq by done. cbn beta iota. unfold bind at 1.
  match goal with
  | |- context [settleAll _ _ ?st] =>
    destruct (settleAll_resume c fs rs
                (arrivalOrder (default [] (head (arrivals (world s))))
                   (length fs)) st Hlen) as (os & ls & -> & Hos)
  end.
  cbn beta iota. rewrite Hos. unfold nextArrival.
  destruct (firstFatalIn _ rs) as [e|]; simpl.
  - exists [], ls. reflexivity.
  - eexists _, ls. reflexivity.
Qed.

(** *** The sequential loop *)

Lemma forEach_createUniqueIndex c fs s d :
  db (this s) = Some d →
  ∃ ls,
    forEach (λ field, createUniqueIndex field c) fs s =
      let '(e, w1) := issueSeq (db_collection d c) fs (world s) in
      (match e with None => Return tt | Some e => Throw e end,
       withWorld s (prints ls w1)).
Proof.
  revert s. induction fs as [|f fs IH]; intros s Hd; simpl.
  - exists []. rewrite prints_nil. by destruct s.
  - unfold bind. rewrite (createUniqueIndex_Some f c s d Hd).
    destruct (coll_createIndex _ f (world s)) as [[n|e] w1]; simpl.
    + destruct (IH (withWorld s (print LvlLog (MsgUniqueIndexCreated f c) w1)) Hd)
        as [ls ->]. simpl.
      rewrite print_prints, issueSeq_prints.
      destruct (issueSeq _ fs w1) as [e w2]. rewrite prints_prints.
      by eexists.
    + destruct (isIndexConflict e).
      * destruct (IH (withWorld s (print LvlWarn (MsgIndexAlreadyExists f c) w1)) Hd)
          as [ls ->]. simpl.
        rewrite print_prints, issueSeq_prints.
        destruct (issueSeq _ fs w1) as [e' w2]. rewrite prints_prints.
        by eexists.
      * by eexists [_].
Qed.

(** ** [initDb] and [initCollection] *)

Lemma record_call_prints ev ls w :
  record_call ev (prints ls w) = prints ls (record_call ev w).
Proof. reflexivity. Qed.

Lemma initDb_Some indexes c s d :
  db (this s) = Some d →
  initDb indexes c s
    = (Return (Some d),
       withWorld s (prints [(LvlLog, MsgInitDB);
                            (LvlLog, MsgAlreadyInitialized (dbName (this s)))]
                      (world s))).
Proof.
  intros Hd. unfold initDb, bind, console_log, getThis, ret. simpl.
  rewrite Hd. simpl. rewrite Hd. rewrite !print_prints, prints_prints.
  reflexivity.
Qed.

Lemma initDb_None_rejected indexes c s e :
  db (this s) = None →
  clientPromise (world s) = Throw e →
  initDb indexes c s
    = (Throw e,
       withWorld s
         (prints [(LvlLog, MsgInitDB);
                  (LvlError, MsgFailedToConnect (dbName (this s)) e);
                  (LvlError, MsgErrorInitializingDatabase e)]
            (record_call AwaitClientPromise (world s)))).
Proof.
  intros Hd Hp. unfold initDb, bind at 1 2, console_log, getThis. simpl.
  rewrite Hd. simpl. unfold bind at 1, try_catch, bind at 1.
  rewrite connectDb_None by done. simpl. rewrite Hp.
  unfold bind, console_error, throw, withWorld. simpl.
  rewrite !print_prints, record_call_prints, !prints_prints. reflexivity.
Qed.

Lemma coll_createIndex_arrivals h f w :
  arrivals (coll_createIndex h f w).2 = arrivals w.
Proof.
  unfold coll_createIndex, driverCall. simpl.
  repeat case_match; simplify_eq/=; done.
Qed.

Lemma issueAll_arrivals h fs w : arrivals (issueAll h fs w).2 = arrivals w.
Proof.
  revert w. induction fs as [|f fs IH]; intros w; simpl; [done|].
  pose proof (coll_createIndex_arrivals h f w) as H1.
  destruct (coll_createIndex h f w) as [r w1]. simpl in H1.
  specialize (IH w1). destruct (issueAll h fs w1). simpl in *. congruence.
Qed.

Lemma initDb_None_resolved indexes c s cl :
  db (this s) = None →
  clientPromise (world s) = Return cl →
  let d := client_db cl (dbName (this s)) in
  let '(rs, w1) := issueAll (db_collection d c) indexes
                     (record_call AwaitClientPromise (world s)) in
  ∃ ls,
    initDb indexes c s =
      (match firstFatalIn (nextArrival (world s) (length indexes)) rs with
       | None => Return (Some d)
       | Some e => Throw e
       end,
       {| this := {| dbName := dbName (this s); client := Some cl; db := Some d |};
          world := prints ls (afterArrival w1) |}).
Proof.
  intros Hd Hp d.
  pose proof (issueAll_length (db_collection d c) indexes
                (record_call AwaitClientPromise (world s))) as Hlen.
  pose proof (issueAll_arrivals (db_collection d c) indexes
                (record_call AwaitClientPromise (world s))) as Harr.
  destruct (issueAll _ _ _) as [rs w1] eqn:Hall. simpl in Hlen, Harr.
  unfold initDb, bind at 1 2, console_log, getThis. simpl.
  rewrite Hd. simpl. unfold bind at 1, try_catch, bind at 1.
  rewrite connectDb_None by done. simpl. rewrite Hp.
  unfold bind at 1. cbn beta iota. unfold bind at 1.
  erewrite (mapStart_createUniqueIndex c indexes _ d) by reflexivity. simpl.
  rewrite !print_prints, record_call_prints, !prints_prints.
  rewrite issueAll_prints. fold d. rewrite Hall.
  unfold bind at 1.
  unfold withWorld. cbn [this world].
  match goal with
  | |- context [Promise_all _ ?st] =>
    destruct (Promise_all_resume c indexes rs st Hlen) as (us & ls & Hus)
  end.
  rewrite Hus. unfold withWorld. cbn [this world].
  rewrite afterArrival_prints.
  assert (∀ ls0 n, nextArrival (prints ls0 w1) n = nextArrival (world s) n)
    as ->.
  { intros ls0 n. unfold nextArrival.
    change (arrivals (prints ls0 w1)) with (arrivals w1). by rewrite Harr. }
  clear Hus.
  destruct (firstFatalIn (nextArrival (world s) _) rs) as [e|]; simpl.
  - unfold bind, console_error, throw. simpl.
    rewrite print_prints, !prints_prints. by eexists.
  - unfold bind, console_log, getThis, ret. simpl.
    rewrite print_prints, !prints_prints. by eexists.
Qed.

Lemma initCollection_Some indexes c s d :
  db (this s) = Some d →
  let '(e, w1) := issueSeq (db_collection d c) indexes (world s) in
  ∃ ls,
    initCollection indexes c s =
      (match e with None => Return (Some d) | Some e => Throw e end,
       withWorld s (prints ls w1)).
Proof.
  intros Hd. unfold initCollection. rewrite lazy_connect_then, Hd.
  destruct (forEach_createUniqueIndex c indexes s d Hd) as [ls Hls].
  destruct (issueSeq _ _ _) as [e w1].
  unfold bind, try_catch. rewrite Hls. destruct e as [e|]; simpl.
  - unfold bind, console_error, throw. simpl.
    rewrite print_prints, prints_prints. by eexists.
  - unfold getThis, ret. simpl. rewrite Hd. by eexists.
Qed.

Lemma initCollection_None indexes c s :
  db (this s) = None →
  initCollection indexes c s =
    match clientPromise (world s) with
    | Return cl => initCollection indexes c (connectedState s cl)
    | Throw e => (Throw e, connectFailedState s e)
    end.
Proof.
  intros H. unfold initCollection at 1. rewrite lazy_connect_then, H.
  reflexivity.
Qed.

(** *** Indexes in the store *)

Lemma coll_createIndex_uniq_mono h f w g :
  g ∈ uniq (lookupColl (store w) h) →
  g ∈ uniq (lookupColl (store (coll_createIndex h f w).2) h).
Proof.
  intros Hg. unfold coll_createIndex. rewrite driverCall_unfold.
  destruct (nextFault w); [destruct (wasApplied w)|]; simpl;
    rewrite ?afterFault_store, ?afterCall_store; try done;
    (case_bool_decide; simpl;
       [by rewrite ?afterFault_store, ?afterCall_store|];
     destruct (hasDuplicates _ _); simpl;
       [by rewrite ?afterFault_store, ?afterCall_store|];
     rewrite lookupColl_updateColl; simpl; set_solver).
Qed.

Lemma issueAll_uniq_mono h fs w g :
  g ∈ uniq (lookupColl (store w) h) →
  g ∈ uniq (lookupColl (store (issueAll h fs w).2) h).
Proof.
  revert w. induction fs as [|f fs IH]; intros w Hg; simpl; [done|].
  pose proof (coll_createIndex_uniq_mono h f w g Hg) as H1.
  destruct (coll_createIndex h f w) as [r w1]. simpl in H1.
  specialize (IH w1 H1). by destruct (issueAll h fs w1).
Qed.

Lemma coll_createIndex_faults_nil h f w :
  faults w = [] → faults (coll_createIndex h f w).2 = [].
Proof.
  intros Hf. unfold coll_createIndex, driverCall. simpl. rewrite Hf.
  repeat case_match; simplify_eq; done.
Qed.

Lemma nextFault_nil w : faults w = [] → nextFault w = None.
Proof. unfold nextFault. by intros ->. Qed.

(** With a driver that schedules no failure, requests without a fatal
    response leave every requested index in the store. *)
Lemma issueAll_created h fs w :
  faults w = [] →
  firstFatal (issueAll h fs w).1 = None →
  ∀ f, f ∈ fs → f ∈ uniq (lookupColl (store (issueAll h fs w).2) h).
Proof.
  revert w. induction fs as [|f fs IH]; intros w Hf Hok g Hg.
  - by apply elem_of_nil in Hg.
  - simpl in *.
    pose proof (coll_createIndex_faults_nil h f w Hf) as Hf1.
    destruct (coll_createIndex h f w) as [r w1] eqn:Hc. simpl in Hf1.
    pose proof (coll_createIndex_served h f w r w1 (nextFault_nil w Hf) Hc)
      as Hserved.
    pose proof (issueAll_uniq_mono h fs w1) as Hmono.
    specialize (IH w1 Hf1).
    destruct (issueAll h fs w1) as [rs w2]. simpl in *.
    destruct r as [n|e]; simpl in Hok.
    + apply elem_of_cons in Hg as [->|Hg]; [by apply Hmono|by apply IH].
    + destruct Hserved as [-> _]. done.
Qed.

(** ** C1: [initDb] *)

(** C1 (amended). [initDb] creates indexes only when it finds no [db]
    handle.  With a [db] handle present it returns that handle and sends
    nothing to the driver.  Without one it awaits [clientPromise]; if that
    is rejected the error is rethrown and no index is requested; if it
    resolves, both fields are set and one [createIndex] request is sent for
    every field of [indexes], in order, before any response is looked at.
    The responses then arrive in some order, each request answered once.
    The call returns the [db] handle exactly when no response is fatal,
    and otherwise rethrows the first fatal response to arrive, which is
    the first fatal response when they arrive in the order of the
    requests; the requests that were sent stay in effect either way.  When
    it returns and the driver scheduled no failure, every field of
    [indexes] has its unique index in the store. *)
Theorem initDb_spec (indexes : list string) (collectionName : string) (s : St) :
  (∀ d, db (this s) = Some d →
     ∃ s', initDb indexes collectionName s = (Return (Some d), s') ∧
           this s' = this s ∧
           driverView (world s') = driverView (world s)) ∧
  (∀ e, db (this s) = None → clientPromise (world s) = Throw e →
     ∃ s', initDb indexes collectionName s = (Throw e, s') ∧
           this s' = this s ∧
           store (world s') = store (world s) ∧
           trace (world s') = trace (world s) ++ [AwaitClientPromise]) ∧
  (∀ cl, db (this s) = None → clientPromise (world s) = Return cl →
     let d := client_db cl (dbName (this s)) in
     let h := db_collection d collectionName in
     let sent := issueAll h indexes (record_call AwaitClientPromise (world s)) in
     let order := nextArrival (world s) (length indexes) in
     ∃ s', initDb indexes collectionName s
             = (match firstFatalIn order sent.1 with
                | None => Return (Some d)
                | Some e => Throw e
                end, s') ∧
           order ≡ₚ seq 0 (length indexes) ∧
           (firstFatalIn order sent.1 = None ↔ firstFatal sent.1 = None) ∧
           (order = seq 0 (length indexes) →
            firstFatalIn order sent.1 = firstFatal sent.1) ∧
           client (this s') = Some cl ∧ db (this s') = Some d ∧
           driverView (world s') = driverView sent.2 ∧
           trace (world s')
             = trace (world s)
                 ++ AwaitClientPromise
                    :: map (λ f, CallCreateIndex h f true) indexes ∧
           (faults (world s) = [] → firstFatal sent.1 = None →
            ∀ f, f ∈ indexes → f ∈ uniq (lookupColl (store (world s')) h))).
Proof.
  split; [|split].
  - intros d Hd. rewrite (initDb_Some _ _ s d Hd). by eexists.
  - intros e Hd Hp. rewrite (initDb_None_rejected _ _ s e Hd Hp). by eexists.
  - intros cl Hd Hp d h sent order.
    pose proof (initDb_None_resolved indexes collectionName s cl Hd Hp) as H.
    cbv zeta in H. fold d h sent order in H.
    pose proof (issueAll_trace h indexes
                  (record_call AwaitClientPromise (world s))) as Ht.
    pose proof (issueAll_created h indexes
                  (record_call AwaitClientPromise (world s))) as Hcr.
    pose proof (issueAll_length h indexes
                  (record_call AwaitClientPromise (world s))) as Hlen.
    fold sent in Ht, Hcr, Hlen.
    destruct sent as [rs w1]. destruct H as [ls ->]. simpl in *.
    eexists. split; [done|]. simpl.
    split; [apply arrivalOrder_Permutation|].
    split.
    { unfold order, nextArrival. rewrite <- Hlen.
      apply firstFatalIn_arrivalOrder_None. }
    split.
    { intros ->. rewrite <- Hlen. apply firstFatalIn_in_order. }
    repeat split; try done.
    rewrite Ht. by rewrite <- app_assoc.
Qed.

(** ** C2: [initCollection] against [initDb] *)


(** ** The name a receiver is bound to *)

Lemma keepsName_ret {A} (a : A) : keepsName (ret a).
Proof. by intros s. Qed.

Lemma keepsName_throw {A} e : keepsName (@throw A e).
Proof. by intros s. Qed.

Lemma keepsName_getThis : keepsName getThis.
Proof. by intros s. Qed.

Lemma keepsName_set_client c : keepsName (set_client c).
Proof. by intros s. Qed.

Lemma keepsName_set_db d : keepsName (set_db d).
Proof. by intros s. Qed.

Lemma keepsName_await {A} (call : World → Outcome A * World) :
  keepsName (await call).
Proof. intros s. unfold await. by destruct (call (world s)). Qed.

Lemma keepsName_await_clientPromise : keepsName await_clientPromise.
Proof. by intros s. Qed.

Lemma keepsName_console_log m : keepsName (console_log m).
Proof. by intros s. Qed.

Lemma keepsName_console_warn m : keepsName (console_warn m).
Proof. by intros s. Qed.

Lemma keepsName_console_error m : keepsName (console_error m).
Proof. by intros s. Qed.

Lemma keepsName_bind {A B} (m : Eff A) (k : A → Eff B) :
  keepsName m → (∀ a, keepsName (k a)) → keepsName (bind m k).
Proof.
  intros Hm Hk s. unfold bind. specialize (Hm s).
  destruct (m s) as [[a|e] s1]; simpl in *; [|done].
  by rewrite Hk.
Qed.

Lemma keepsName_try_catch {A} (m : Eff A) (h : Error → Eff A) :
  keepsName m → (∀ e, keepsName (h e)) → keepsName (try_catch m h).
Proof.
  intros Hm Hh s. unfold try_catch. specialize (Hm s).
  destruct (m s) as [[a|e] s1]; simpl in *; [done|].
  by rewrite Hh.
Qed.

Lemma keepsName_forEach {A} (f : A → Eff unit) l :
  (∀ a, keepsName (f a)) → keepsName (forEach f l).
Proof.
  intros Hf. induction l as [|a l IH]; simpl.
  - apply keepsName_ret.
  - apply keepsName_bind; [apply Hf|by intros _].
Qed.

Create HintDb keeps.

#[local] Hint Resolve keepsName_ret keepsName_throw keepsName_getThis
  keepsName_set_client keepsName_set_db keepsName_await
  keepsName_await_clientPromise keepsName_console_log keepsName_console_warn
  keepsName_console_error keepsName_bind keepsName_try_catch
  keepsName_forEach : keeps.

Ltac keeps :=
  repeat first
    [ progress intros
    | match goal with
      | |- keepsName (if ?b then _ else _) => destruct b
      | |- keepsName (match ?o with Some _ => _ | None => _ end) => destruct o
      end
    | solve [auto 1 with keeps]
    | apply keepsName_bind
    | apply keepsName_try_catch
    | apply keepsName_forEach ].

Lemma keepsName_getCollection c : keepsName (getCollection c).
Proof. unfold getCollection. keeps. Qed.

Lemma keepsName_connectDb : keepsName connectDb.
Proof. unfold connectDb. keeps. Qed.

Lemma keepsName_createUniqueIndex f c : keepsName (createUniqueIndex f c).
Proof.
  unfold createUniqueIndex, createUniqueIndex_catch.
  pose proof keepsName_getCollection. keeps.
Qed.

#[local] Hint Resolve keepsName_getCollection keepsName_connectDb
  keepsName_createUniqueIndex : keeps.

Lemma keepsName_initCollection indexes c : keepsName (initCollection indexes c).
Proof. unfold initCollection. keeps. Qed.

Lemma keepsName_documentExists f v c : keepsName (documentExists f v c).
Proof. unfold documentExists. keeps. Qed.

Lemma keepsName_addDocument c d : keepsName (addDocument c d).
Proof. unfold addDocument. keeps. Qed.

Lemma keepsName_removeAllDocuments c : keepsName (removeAllDocuments c).
Proof. unfold removeAllDocuments. keeps. Qed.

Lemma keepsName_disconnectDb : keepsName disconnectDb.
Proof. unfold disconnectDb. keeps. Qed.

Lemma keepsName_initDb indexes c : keepsName (initDb indexes c).
Proof.
  intros s. destruct (db (this s)) as [d|] eqn:Hd.
  - by rewrite (initDb_Some _ _ s d Hd).
  - destruct (clientPromise (world s)) as [cl|e] eqn:Hp.
    + pose proof (initDb_None_resolved indexes c s cl Hd Hp) as H.
      cbv zeta in H. destruct (issueAll _ _ _) as [rs w1].
      by destruct H as [ls ->].
    + by rewrite (initDb_None_rejected _ _ s e Hd Hp).
Qed.

(** ** C5: the singleton *)

Lemma perform_dbName m s : dbName (this (perform m s)) = dbName (this s).
Proof.
  destruct m; simpl.
  - apply keepsName_initDb.
  - apply keepsName_initCollection.
  - apply keepsName_documentExists.
  - apply keepsName_addDocument.
  - apply keepsName_removeAllDocuments.
Qed.

Lemma singleton_step x y : step x y → singleton x.1 → singleton y.1.
Proof.
  intros [name p w|m r o p w Hi Hr]; simpl; unfold singleton, getInstance.
  - destruct (instance p) as [r|] eqn:Hi; simpl; [by rewrite Hi|].
    intros ->. done.
  - cbn [heap instance]. rewrite Hi. by rewrite length_insert.
Qed.

Lemma singleton_rtc x y : rtc step x y → singleton x.1 → singleton y.1.
Proof. induction 1; eauto using singleton_step. Qed.

Lemma boundTo_step r name x y : step x y → boundTo r name x.1 → boundTo r name y.1.
Proof.
  intros [n p w|m r' o p w Hi Hr]; simpl; unfold boundTo, getInstance.
  - intros [Hi H]. by rewrite Hi.
  - intros [Hi' (o' & Ho' & Hn)]. simpl. split; [done|].
    rewrite Hi in Hi'. injection Hi' as ->. rewrite Hr in Ho'.
    injection Ho' as ->. eexists. split.
    + apply list_lookup_insert_eq. by eapply lookup_lt_Some.
    + by rewrite perform_dbName.
Qed.

Lemma boundTo_rtc r name x y : rtc step x y → boundTo r name x.1 → boundTo r name y.1.
Proof. induction 1; eauto using boundTo_step. Qed.

(** C5. Two calls of [getInstance] in a row return the same object, and
    the second one, whatever its argument, changes nothing.  In a process
    that starts without an instance, the first call creates the object
    with the caller's name; from then on, through any later calls of
    [getInstance] and of the public methods, [getInstance] keeps returning
    that object, the object keeps that [dbName], and the heap never holds
    a second object of the class. *)
Theorem getInstance_singleton (name1 name2 : string) :
  (∀ p, let '(r1, p1) := getInstance name1 p in
        let '(r2, p2) := getInstance name2 p1 in
        r1 = r2 ∧ p2 = p1 ∧ instance p1 = Some r1) ∧
  (∀ p, instance p = None →
        let '(r1, p1) := getInstance name1 p in
        r1 = length (heap p) ∧
        heap p1 = heap p ++ [new_DataBase name1] ∧
        boundTo r1 name1 p1) ∧
  (∀ w p' w',
     rtc step ((getInstance name1 initialProcess).2, w) (p', w') →
     getInstance name2 p' = (0, p') ∧
     (∃ o, heap p' = [o] ∧ dbName o = name1)).
Proof.
  split; [|split].
  - intros p. unfold getInstance.
    destruct (instance p) as [r|] eqn:Hi; simpl; [by rewrite Hi|done].
  - intros p Hi. unfold getInstance, boundTo. rewrite Hi. simpl.
    split; [done|]. split; [done|]. split; [done|].
    exists (new_DataBase name1). split; [|done].
    rewrite lookup_app_r by done. by rewrite Nat.sub_diag.
  - intros w p' w' Hrtc.
    pose proof (boundTo_rtc 0 name1 _ _ Hrtc) as Hb.
    pose proof (singleton_rtc _ _ Hrtc) as Hs. simpl in Hb, Hs.
    destruct Hb as [Hi (o & Ho & Hn)].
    { split; [done|]. by exists (new_DataBase name1). }
    unfold singleton in Hs. rewrite Hi in Hs. destruct Hs as [_ Hlen]; [done|].
    unfold getInstance. rewrite Hi. split; [done|].
    exists o. split; [|done].
    destruct (heap p') as [|o' [|??]]; simplify_eq/=. done.
Qed.

(** ** Reachable receivers are consistent *)

Lemma driverCall_clientPromise {A} ev (serve : World → Outcome A * World) :
  (∀ w, clientPromise (serve w).2 = clientPromise w) →
  ∀ w, clientPromise (driverCall ev serve w).2 = clientPromise w.
Proof.
  intros Hs w. rewrite driverCall_unfold.
  destruct (nextFault w); simpl.
  - destruct (wasApplied w); by rewrite ?Hs, afterFault_clientPromise.
  - by rewrite Hs, afterCall_clientPromise.
Qed.

Lemma coll_createIndex_clientPromise h f w :
  clientPromise (coll_createIndex h f w).2 = clientPromise w.
Proof.
  apply driverCall_clientPromise. intros w'. cbv zeta.
  by repeat case_match.
Qed.

Lemma coll_findOne_clientPromise h q w :
  clientPromise (coll_findOne h q w).2 = clientPromise w.
Proof. by apply driverCall_clientPromise. Qed.

Lemma coll_insertOne_clientPromise h d w :
  clientPromise (coll_insertOne h d w).2 = clientPromise w.
Proof.
  apply driverCall_clientPromise. intros w'. cbv zeta.
  by repeat case_match; simplify_eq.
Qed.

Lemma coll_deleteMany_clientPromise h q w :
  clientPromise (coll_deleteMany h q w).2 = clientPromise w.
Proof. by apply driverCall_clientPromise. Qed.

Lemma issueAll_clientPromise h fs w :
  clientPromise (issueAll h fs w).2 = clientPromise w.
Proof.
  revert w. induction fs as [|f fs IH]; intros w; simpl; [done|].
  pose proof (coll_createIndex_clientPromise h f w) as H1.
  destruct (coll_createIndex h f w) as [r w1]. simpl in H1.
  specialize (IH w1). destruct (issueAll h fs w1). simpl in *. congruence.
Qed.

Lemma keepsConsistent_ret {A} (a : A) : keepsConsistent (ret a).
Proof. by intros s. Qed.

Lemma keepsConsistent_throw {A} e : keepsConsistent (@throw A e).
Proof. by intros s. Qed.

Lemma keepsConsistent_getThis : keepsConsistent getThis.
Proof. by intros s. Qed.

Lemma keepsConsistent_console_log m : keepsConsistent (console_log m).
Proof. by intros s. Qed.

Lemma keepsConsistent_console_warn m : keepsConsistent (console_warn m).
Proof. by intros s. Qed.

Lemma keepsConsistent_console_error m : keepsConsistent (console_error m).
Proof. by intros s. Qed.

Lemma keepsConsistent_await {A} (call : World → Outcome A * World) :
  (∀ w, clientPromise (call w).2 = clientPromise w) →
  keepsConsistent (await call).
Proof.
  intros Hc s Hs. unfold await. specialize (Hc (world s)).
  destruct (call (world s)) as [r w1]. unfold consistent in *. simpl in *.
  by rewrite Hc.
Qed.

Lemma keepsConsistent_bind {A B} (m : Eff A) (k : A → Eff B) :
  keepsConsistent m → (∀ a, keepsConsistent (k a)) →
  keepsConsistent (bind m k).
Proof.
  intros Hm Hk s Hs. unfold bind. specialize (Hm s Hs).
  destruct (m s) as [[a|e] s1]; simpl in *; [|done].
  by apply Hk.
Qed.

Lemma keepsConsistent_try_catch {A} (m : Eff A) (h : Error → Eff A) :
  keepsConsistent m → (∀ e, keepsConsistent (h e)) →
  keepsConsistent (try_catch m h).
Proof.
  intros Hm Hh s Hs. unfold try_catch. specialize (Hm s Hs).
  destruct (m s) as [[a|e] s1]; simpl in *; [done|].
  by apply Hh.
Qed.

Lemma keepsConsistent_forEach {A} (f : A → Eff unit) l :
  (∀ a, keepsConsistent (f a)) → keepsConsistent (forEach f l).
Proof.
  intros Hf. induction l as [|a l IH]; simpl.
  - apply keepsConsistent_ret.
  - apply keepsConsistent_bind; [apply Hf|by intros _].
Qed.

Lemma keepsConsistent_connectDb : keepsConsistent connectDb.
Proof.
  intros s Hs.
  destruct (truthy (client (this s)) && truthy (db (this s))) eqn:E.
  - apply andb_true_iff in E as [E1 E2].
    destruct (client (this s)) as [c|] eqn:Hc; [|done].
    destruct (db (this s)) as [d|] eqn:Hd; [|done].
    rewrite (connectDb_connected s c d Hc Hd). unfold consistent in *.
    simpl. by rewrite Hc, Hd in *.
  - rewrite (connectDb_fresh s E).
    destruct (clientPromise (world s)) as [c|e] eqn:Hp; simpl.
    + unfold consistent. simpl. rewrite Hp.
      split; [by intros ? [= <-]|]. by intros ? [= <-].
    + exact Hs.
Qed.

Lemma keepsConsistent_getCollection c : keepsConsistent (getCollection c).
Proof.
  intros s Hs. destruct (db (this s)) as [d|] eqn:Hd.
  - by rewrite (getCollection_Some c s d Hd).
  - by rewrite (getCollection_None c s Hd).
Qed.

Create HintDb consist.

#[local] Hint Resolve keepsConsistent_ret keepsConsistent_throw
  keepsConsistent_getThis keepsConsistent_console_log
  keepsConsistent_console_warn keepsConsistent_console_error
  keepsConsistent_connectDb keepsConsistent_getCollection
  coll_createIndex_clientPromise coll_findOne_clientPromise
  coll_insertOne_clientPromise coll_deleteMany_clientPromise : consist.

Ltac consist :=
  repeat first
    [ progress intros
    | match goal with
      | |- keepsConsistent (if ?b then _ else _) => destruct b
      end
    | solve [auto 1 with consist]
    | apply keepsConsistent_await
    | apply keepsConsistent_bind
    | apply keepsConsistent_try_catch
    | apply keepsConsistent_forEach ].

Lemma keepsConsistent_createUniqueIndex f c :
  keepsConsistent (createUniqueIndex f c).
Proof. unfold createUniqueIndex, createUniqueIndex_catch. consist. Qed.

#[local] Hint Resolve keepsConsistent_createUniqueIndex : consist.

Lemma keepsConsistent_initCollection indexes c :
  keepsConsistent (initCollection indexes c).
Proof. unfold initCollection. consist. Qed.

Lemma keepsConsistent_documentExists f v c :
  keepsConsistent (documentExists f v c).
Proof. unfold documentExists. consist. Qed.

Lemma keepsConsistent_addDocument c d : keepsConsistent (addDocument c d).
Proof. unfold addDocument. consist. Qed.

Lemma keepsConsistent_removeAllDocuments c :
  keepsConsistent (removeAllDocuments c).
Proof. unfold removeAllDocuments. consist. Qed.

Lemma keepsConsistent_initDb indexes c : keepsConsistent (initDb indexes c).
Proof.
  intros s Hs. destruct (db (this s)) as [d|] eqn:Hd.
  - by rewrite (initDb_Some _ _ s d Hd).
  - destruct (clientPromise (world s)) as [cl|e] eqn:Hp.
    + pose proof (initDb_None_resolved indexes c s cl Hd Hp) as H.
      cbv zeta in H.
      pose proof (issueAll_clientPromise
                    (db_collection (client_db cl (dbName (this s))) c) indexes
                    (record_call AwaitClientPromise (world s))) as Hcp.
      destruct (issueAll _ _ _) as [rs w1]. destruct H as [ls ->].
      unfold consistent. simpl in *. rewrite Hcp, Hp.
      split; [by intros ? [= <-]|]. by intros ? [= <-].
    + rewrite (initDb_None_rejected _ _ s e Hd Hp). unfold consistent in *.
      simpl. by rewrite Hd in *.
Qed.

Lemma perform_consistent m s : consistent s → consistent (perform m s).
Proof.
  destruct m; simpl.
  - apply keepsConsistent_initDb.
  - apply keepsConsistent_initCollection.
  - apply keepsConsistent_documentExists.
  - apply keepsConsistent_addDocument.
  - apply keepsConsistent_removeAllDocuments.
Qed.

Lemma heapConsistent_step x y :
  step x y → singleton x.1 → heapConsistent x → heapConsistent y.
Proof.
  intros [name p w|m r o p w Hi Hr] Hsing Hc r' o'; simpl in *.
  - unfold getInstance. destruct (instance p) as [r0|]; simpl.
    + apply Hc.
    + intros [Ho|[_ Ho]]%lookup_app_Some; [by apply (Hc r')|].
      apply list_lookup_singleton_Some in Ho as [_ <-].
      split; [by intros ?|by intros ?].
  - unfold singleton in Hsing. rewrite Hi in Hsing.
    destruct Hsing as [-> Hlen].
    unfold heapConsistent in Hc. simpl in Hc.
    destruct (heap p) as [|o0 [|??]]; simplify_eq/=.
    destruct r' as [|r']; simpl; [|done]. intros [= <-].
    rewrite St_eta. apply perform_consistent. by apply (Hc 0).
Qed.

Lemma heapConsistent_rtc x y :
  rtc step x y →
  singleton x.1 ∧ heapConsistent x → singleton y.1 ∧ heapConsistent y.
Proof.
  induction 1 as [|x y z Hxy _ IH]; [done|]. intros [Hs Hh]. apply IH.
  split; [by eapply singleton_step|by eapply heapConsistent_step].
Qed.

(** Along every run from a process without an instance, whenever the
    instance has a client, it is the client [clientPromise] resolved to. *)
Lemma reachable_client_from_promise w p' w' o cl :
  rtc step (initialProcess, w) (p', w') →
  heap p' !! 0 = Some o →
  client o = Some cl →
  clientPromise w' = Return cl.
Proof.
  intros Hrtc Ho Hcl.
  destruct (heapConsistent_rtc _ _ Hrtc) as [_ Hc].
  { split; [done|]. by intros r o'. }
  exact (proj1 (Hc 0 o Ho) cl Hcl).
Qed.

(** * Counterexamples and instances *)

(** C1, counterexample: on a receiver that already has its [db] handle,
    [initDb] returns normally and yet no [createIndex] request has reached
    the driver and the collection has no unique index. *)
Lemma initDb_connected_requests_nothing :
  db (this exConnected) = Some exDb ∧
  (initDb ["email"] "User" exConnected).1 = Return (Some exDb) ∧
  trace (world (initDb ["email"] "User" exConnected).2) = [] ∧
  uniq (lookupColl (store (world (initDb ["email"] "User" exConnected).2))
          exUsers) = ∅.
Proof. vm_compute. done. Qed.


(** With two fatal responses arriving out of order, [initDb] rethrows the
    one that arrives first and [initCollection] the one to the first
    request. *)
Lemma initDb_initCollection_errors_differ :
  (initDb ["email"; "name"] "User" exOutOfOrder).1 = Throw exTimeout ∧
  (initCollection ["email"; "name"] "User" exOutOfOrder).1
    = Throw exNetworkError ∧
  (initDb ["email"; "name"] "User" exInOrder).1 = Throw exNetworkError.
Proof. vm_compute. done. Qed.

Lemma initDb_spec_witness :
  (db (this exFresh) = None ∧
   clientPromise (world exFresh) = Return exClient ∧
   ∃ s', initDb ["email"; "name"] "User" exFresh = (Return (Some exDb), s') ∧
         db (this s') = Some exDb ∧
         trace (world s')
           = [AwaitClientPromise; CallCreateIndex exUsers "email" true;
              CallCreateIndex exUsers "name" true]) ∧
  (db (this exOutOfOrder) = None ∧
   clientPromise (world exOutOfOrder) = Return exClient ∧
   nextArrival (world exOutOfOrder) 2 = [1; 0] ∧
   ∃ s', initDb ["email"; "name"] "User" exOutOfOrder = (Throw exTimeout, s') ∧
         trace (world s')
           = [AwaitClientPromise; CallCreateIndex exUsers "email" true;
              CallCreateIndex exUsers "name" true]).
Proof.
  split.
  - split; [reflexivity|]. split; [reflexivity|].
    destruct (proj2 (proj2 (initDb_spec ["email"; "name"] "User" exFresh))
                exClient eq_refl eq_refl)
      as (s' & H & _ & _ & _ & _ & Hdb & _ & Ht & _).
    exists s'. split; [exact H|]. split; [exact Hdb|exact Ht].
  - split; [reflexivity|]. split; [reflexivity|]. split; [reflexivity|].
    destruct (proj2 (proj2 (initDb_spec ["email"; "name"] "User" exOutOfOrder))
                exClient eq_refl eq_refl)
      as (s' & H & _ & _ & _ & _ & _ & _ & Ht & _).
    exists s'. split; [exact H|exact Ht].
Defined.


Lemma createUniqueIndex_spec_witness :
  (∃ s', createUniqueIndex "email" "User" (exAnswering exConflictByCode)
           = (Return tt, s')) ∧
  (∃ s', createUniqueIndex "email" "User" (exAnswering exConflictByName)
           = (Return tt, s')) ∧
  (∃ s', createUniqueIndex "email" "User" (exAnswering exNetworkError)
           = (Throw exNetworkError, s')) ∧
  (∃ s', createUniqueIndex "email" "User" (exAnswering duplicateKeyError)
           = (Throw duplicateKeyError, s')) ∧
  ((createUniqueIndex "email" "User" exConnected).1 = Return tt ∧
   nextFault (world exConnected) = None ∧
   ∃ s2, createUniqueIndex "email" "User"
           (createUniqueIndex "email" "User" exConnected).2 = (Return tt, s2)) ∧
  ((createUniqueIndex "email" "User" (exAnsweringSecond exConflictByCode)).1
     = Return tt ∧
   nextFault (world (createUniqueIndex "email" "User"
                       (exAnsweringSecond exConflictByCode)).2)
     = Some exConflictByCode ∧
   ∃ s2, createUniqueIndex "email" "User"
           (createUniqueIndex "email" "User"
              (exAnsweringSecond exConflictByCode)).2 = (Return tt, s2)).
Proof.
  split; [|split; [|split; [|split; [|split]]]].
  - destruct (proj1 (createUniqueIndex_spec "email" "User"
                       (exAnswering exConflictByCode))
                exDb (Throw exConflictByCode) _ eq_refl eq_refl)
      as (s' & _ & Hswallow & _).
    exists s'. exact (Hswallow (or_introl eq_refl)).
  - destruct (proj1 (createUniqueIndex_spec "email" "User"
                       (exAnswering exConflictByName))
                exDb (Throw exConflictByName) _ eq_refl eq_refl)
      as (s' & _ & Hswallow & _).
    exists s'. exact (Hswallow (or_intror eq_refl)).
  - destruct (proj1 (createUniqueIndex_spec "email" "User"
                       (exAnswering exNetworkError))
                exDb (Throw exNetworkError) _ eq_refl eq_refl)
      as (s' & _ & _ & Hrethrow).
    exists s'. apply Hrethrow; discriminate.
  - destruct (proj1 (createUniqueIndex_spec "email" "User"
                       (exAnswering duplicateKeyError))
                exDb (Throw duplicateKeyError) _ eq_refl eq_refl)
      as (s' & _ & _ & Hrethrow).
    exists s'. apply Hrethrow; discriminate.
  - split; [reflexivity|]. split; [reflexivity|].
    apply (proj2 (proj2 (createUniqueIndex_spec "email" "User" exConnected))).
    + reflexivity.
    + reflexivity.
    + intros e He. vm_compute in He. discriminate He.
  - split; [reflexivity|]. split; [reflexivity|].
    apply (proj2 (proj2 (createUniqueIndex_spec "email" "User"
                           (exAnsweringSecond exConflictByCode)))).
    + reflexivity.
    + reflexivity.
    + intros e He. vm_compute in He. injection He as <-. left. reflexivity.
Defined.

Lemma documentExists_spec_witness :
  isOperator "email" = false ∧
  (∃ s', documentExists "email" (VString "a@x.com") "User" exFresh
           = (Return false, s')) ∧
  (∃ r, addDocument "User" exDocument exFresh = (Return r, exStored) ∧
        ∃ s2, documentExists "email" (VString "a@x.com") "User" exStored
                = (Return true, s2)) ∧
  (length (stored (world exStored) exUsers) = 1 ∧
   ∃ b s', documentExists "email" (VString "b@x.com") "User" exStored
             = (Return b, s') ∧
           b = false).
Proof.
  split; [reflexivity|]. split; [|split].
  - apply (proj1 (proj2 (proj2 (documentExists_spec "email" (VString "a@x.com")
                                  "User" exFresh eq_refl))) exUsers);
      reflexivity.
  - exists {| ins_acknowledged := true; insertedId := VObjectId 0 |}.
    assert (addDocument "User" exDocument exFresh
              = (Return {| ins_acknowledged := true;
                           insertedId := VObjectId 0 |}, exStored)) as Hadd.
    { vm_compute. reflexivity. }
    split; [exact Hadd|].
    apply (proj2 (proj2 (proj2 (documentExists_spec "email" (VString "a@x.com")
                                  "User" exFresh eq_refl)))
             exDocument _ exStored Hadd); reflexivity.
  - split; [reflexivity|].
    destruct (proj1 (proj2 (documentExists_spec "email" (VString "b@x.com")
                              "User" exStored eq_refl)) exUsers
                eq_refl eq_refl) as (b & s' & Hrun).
    exists b, s'. split; [exact Hrun|].
    destruct (proj1 (documentExists_spec "email" (VString "b@x.com")
                       "User" exStored eq_refl) b s' Hrun)
      as (h & Hh & Hiff & _).
    destruct b; [|reflexivity]. exfalso.
    destruct (proj1 Hiff eq_refl) as (doc & Hin & Hv).
    vm_compute in Hh. injection Hh as <-.
    apply list_elem_of_singleton in Hin. subst doc.
    vm_compute in Hv. discriminate Hv.
Defined.

Lemma getInstance_singleton_witness :
  instance initialProcess = None ∧
  (let '(r1, p1) := getInstance "pgc" initialProcess in
   r1 = length (heap initialProcess) ∧
   heap p1 = heap initialProcess ++ [new_DataBase "pgc"] ∧
   boundTo r1 "pgc" p1) ∧
  getInstance "other"
    (getInstance "other" (getInstance "pgc" initialProcess).2).2
    = (0, (getInstance "other" (getInstance "pgc" initialProcess).2).2).
Proof.
  split; [reflexivity|]. split.
  - exact (proj1 (proj2 (getInstance_singleton "pgc" "other"))
             initialProcess eq_refl).
  - apply (proj2 (proj2 (getInstance_singleton "pgc" "other")) exWorld _ exWorld).
    apply rtc_once.
    exact (step_getInstance "other" (getInstance "pgc" initialProcess).2 exWorld).
Defined.

Lemma connectDb_idempotent_witness :
  client (this exConnected) = Some exClient ∧
  db (this exConnected) = Some exDb ∧
  ∃ s', connectDb exConnected = (Return tt, s') ∧
        this s' = this exConnected ∧
        trace (world s') = trace (world exConnected).
Proof.
  split; [reflexivity|]. split; [reflexivity|].
  destruct (proj1 (connectDb_idempotent exConnected) exClient exDb
              eq_refl eq_refl) as (s' & H & Hthis & _ & _ & Ht & _).
  exists s'. split; [exact H|]. split; [exact Hthis|exact Ht].
Defined.

Lemma getCollection_spec_witness :
  db (this exFresh) = None ∧
  getCollection "User" exFresh = (Throw notInitializedError, exFresh) ∧
  db (this exConnected) = Some exDb ∧
  getCollection "User" exConnected = (Return exUsers, exConnected).
Proof.
  split; [reflexivity|]. split.
  - exact (proj1 (getCollection_spec "User" exFresh) eq_refl).
  - split; [reflexivity|].
    exact (proj1 (proj2 (getCollection_spec "User" exConnected)) exDb eq_refl).
Defined.

Lemma removeAllDocuments_spec_witness :
  length (stored (world exTwoUsers) exUsers) = 2 ∧
  (∃ s1, documentExists "email" (VString "a@x.com") "User" exTwoUsers
           = (Return true, s1)) ∧
  ∃ r s', removeAllDocuments "User" exTwoUsers = (Return r, s') ∧
    deletedCount r = 2 ∧
    stored (world s') exUsers = [] ∧
    ∃ s'', documentExists "email" (VString "a@x.com") "User" s'
             = (Return false, s'').
Proof.
  split; [reflexivity|]. split; [eexists; vm_compute; reflexivity|].
  destruct (proj2 (removeAllDocuments_spec "User" exTwoUsers) exUsers
              eq_refl eq_refl) as (r & s' & Hrun & Hcount).
  exists r, s'. split; [exact Hrun|]. split; [exact Hcount|].
  destruct (proj1 (removeAllDocuments_spec "User" exTwoUsers) r s' Hrun)
    as (h & Hh & _ & Hst & _ & _ & Hfalse).
  vm_compute in Hh. injection Hh as <-.
  split; [exact Hst|].
  apply Hfalse.
  assert (s' = (removeAllDocuments "User" exTwoUsers).2) as ->
    by (by rewrite Hrun).
  vm_compute. reflexivity.
Defined.


Lemma disconnectDb_spec_witness :
  client (this exFailing) = Some exClient ∧
  ∃ s', disconnectDb exFailing = (Throw exNetworkError, s') ∧
        client (this s') = Some exClient ∧ db (this s') = Some exDb.
Proof.
  split; [reflexivity|].
  destruct (proj2 (disconnectDb_spec exFailing) exClient eq_refl)
    as (r & s' & H & _ & Hr).
  assert (r = Throw exNetworkError) as ->.
  { exact (f_equal fst (eq_sym H)). }
  exists s'. split; [exact H|].
  destruct Hr as (_ & _ & Hc & Hd). split; [exact Hc|exact (Hd exDb eq_refl)].
Defined.

(** * Further properties of the class *)

(** ** More on what the driver answers *)

Lemma driverCall_trace {A} ev (serve : World → Outcome A * World) :
  (∀ w, trace (serve w).2 = trace w) →
  ∀ w, trace (driverCall ev serve w).2 = trace w ++ [ev].
Proof.
  intros Hs w. rewrite driverCall_unfold.
  destruct (nextFault w); simpl.
  - destruct (wasApplied w); by rewrite ?Hs, afterFault_trace.
  - by rewrite Hs, afterCall_trace.
Qed.

Lemma coll_createIndex_trace' h f w :
  trace (coll_createIndex h f w).2 = trace w ++ [CallCreateIndex h f true].
Proof.
  apply driverCall_trace. intros w'. cbv zeta. by repeat case_match.
Qed.

Lemma coll_findOne_trace h q w :
  trace (coll_findOne h q w).2 = trace w ++ [CallFindOne h q].
Proof. by apply driverCall_trace. Qed.

Lemma coll_deleteMany_trace h q w :
  trace (coll_deleteMany h q w).2 = trace w ++ [CallDeleteMany h q].
Proof. by apply driverCall_trace. Qed.

Lemma lookupColl_updateColl_other h h' cl st :
  ¬ sameCollection h h' →
  lookupColl (updateColl h cl st) h' = lookupColl st h'.
Proof.
  intros Hne. unfold lookupColl, updateColl. by rewrite lookup_insert_ne.
Qed.

(** The store after an insert that returned: one document more in that
    collection. *)
Lemma coll_insertOne_store h d w res w1 :
  coll_insertOne h d w = (Return res, w1) →
  store w1 =
    updateColl h {| docs := stored w h ++ [withId w d];
                    uniq := uniq (lookupColl (store w) h) |} (store w).
Proof.
  unfold coll_insertOne, withId, stored. rewrite driverCall_unfold.
  destruct (nextFault w); [done|].
  rewrite afterCall_store, afterCall_nextOid.
  destruct (d !! "_id") eqn:E;
    destruct (violatesUnique _ _) eqn:Ex; try done;
    intros [= _ <-]; simpl; by rewrite ?afterCall_store.
Qed.

Lemma coll_deleteMany_throws h q w e :
  nextFault w = Some e → (coll_deleteMany h q w).1 = Throw e.
Proof.
  intros Hn. unfold coll_deleteMany. by rewrite driverCall_unfold, Hn.
Qed.

(** ** X1: a rejected connection *)

Lemma perform_rejected (m : Method) (s : St) (e : Error) :
  db (this s) = None →
  clientPromise (world s) = Throw e →
  fails m s = Some e ∧
  this (perform m s) = this s ∧
  store (world (perform m s)) = store (world s) ∧
  clientPromise (world (perform m s)) = Throw e ∧
  trace (world (perform m s)) = trace (world s) ++ [AwaitClientPromise].
Proof.
  intros Hd Hp. destruct m; simpl.
  - by rewrite (initDb_None_rejected _ _ s e Hd Hp).
  - by rewrite (initCollection_None _ _ s Hd), Hp.
  - by rewrite (documentExists_None _ _ _ s Hd), Hp.
  - by rewrite (addDocument_None _ _ s Hd), Hp.
  - by rewrite (removeAllDocuments_None _ s Hd), Hp.
Qed.

(** X1. When the receiver has no [db] handle and [clientPromise] is
    rejected with [e], every public method rethrows [e] itself: the only
    driver call is the await, no request is sent, the store and the
    receiver are as before, so the next call tries again. *)
Theorem public_method_connection_failure (m : Method) (s : St) (e : Error) :
  db (this s) = None →
  clientPromise (world s) = Throw e →
  fails m s = Some e ∧
  this (perform m s) = this s ∧
  store (world (perform m s)) = store (world s) ∧
  trace (world (perform m s)) = trace (world s) ++ [AwaitClientPromise].
Proof.
  intros Hd Hp.
  destruct (perform_rejected m s e Hd Hp) as (? & ? & ? & _ & ?). done.
Qed.

(** ** X2: a failing request *)

Lemma documentExists_fault f v c s h e :
  handleOf s c = Some h → nextFault (world s) = Some e →
  ∃ s', documentExists f v c s = (Throw e, s') ∧
        db (this s') = Some (coll_db h) ∧
        store (world s') = store (world s) ∧
        trace (world s')
          = trace (world s) ++ connectCalls s ++ [CallFindOne h (buildQuery f v)].
Proof.
  unfold handleOf, connectCalls. intros Hh Hn.
  destruct (db (this s)) as [d|] eqn:Hd.
  - injection Hh as <-. rewrite (documentExists_Some f v c s d Hd).
    rewrite coll_findOne_unfold, Hn. eexists. split; [done|]. simpl.
    by rewrite afterFault_store, afterFault_trace.
  - rewrite (documentExists_None f v c s Hd).
    destruct (clientPromise (world s)) as [cl|e']; [|done].
    injection Hh as <-.
    rewrite (documentExists_Some f v c (connectedState s cl) _ eq_refl).
    rewrite coll_findOne_unfold. simpl.
    change (nextFault _) with (nextFault (world s)). rewrite Hn.
    eexists. split; [done|]. simpl.
    rewrite afterFault_store, afterFault_trace. simpl.
    by rewrite <- app_assoc.
Qed.

Lemma addDocument_fault c doc s h e :
  handleOf s c = Some h → nextFault (world s) = Some e →
  ∃ s', addDocument c doc s = (Throw e, s') ∧
        db (this s') = Some (coll_db h) ∧
        trace (world s')
          = trace (world s) ++ connectCalls s ++ [CallInsertOne h doc].
Proof.
  assert (∀ s d, db (this s) = Some d → nextFault (world s) = Some e →
            ∃ s', addDocument c doc s = (Throw e, s') ∧
                  db (this s') = Some d ∧
                  trace (world s')
                    = trace (world s) ++ [CallInsertOne (db_collection d c) doc])
    as Hconn.
  { clear s. intros s d Hd Hn. rewrite (addDocument_Some c doc s d Hd).
    pose proof (coll_insertOne_throws (db_collection d c) doc _ e Hn) as Hr.
    pose proof (coll_insertOne_trace (db_collection d c) doc (world s)) as Ht.
    destruct (coll_insertOne _ doc (world s)) as [r w1]. simpl in Hr, Ht.
    subst r. eexists. split; [done|]. by simpl. }
  unfold handleOf, connectCalls. intros Hh Hn.
  destruct (db (this s)) as [d|] eqn:Hd.
  - injection Hh as <-. by apply Hconn.
  - rewrite (addDocument_None c doc s Hd).
    destruct (clientPromise (world s)) as [cl|e']; [|done].
    injection Hh as <-.
    destruct (Hconn (connectedState s cl) _ eq_refl Hn) as (s' & -> & ? & Ht).
    exists s'. split; [done|]. split; [done|]. rewrite Ht. simpl.
    by rewrite <- app_assoc.
Qed.

Lemma removeAllDocuments_fault c s h e :
  handleOf s c = Some h → nextFault (world s) = Some e →
  ∃ s', removeAllDocuments c s = (Throw e, s') ∧
        db (this s') = Some (coll_db h) ∧
        trace (world s')
          = trace (world s) ++ connectCalls s ++ [CallDeleteMany h ∅].
Proof.
  assert (∀ s d, db (this s) = Some d → nextFault (world s) = Some e →
            ∃ s', removeAllDocuments c s = (Throw e, s') ∧
                  db (this s') = Some d ∧
                  trace (world s')
                    = trace (world s) ++ [CallDeleteMany (db_collection d c) ∅])
    as Hconn.
  { clear s. intros s d Hd Hn. rewrite (removeAllDocuments_Some c s d Hd).
    pose proof (coll_deleteMany_throws (db_collection d c) ∅ _ e Hn) as Hr.
    pose proof (coll_deleteMany_trace (db_collection d c) ∅ (world s)) as Ht.
    destruct (coll_deleteMany _ ∅ (world s)) as [r w1]. simpl in Hr, Ht.
    subst r. eexists. split; [done|]. by simpl. }
  unfold handleOf, connectCalls. intros Hh Hn.
  destruct (db (this s)) as [d|] eqn:Hd.
  - injection Hh as <-. by apply Hconn.
  - rewrite (removeAllDocuments_None c s Hd).
    destruct (clientPromise (world s)) as [cl|e']; [|done].
    injection Hh as <-.
    destruct (Hconn (connectedState s cl) _ eq_refl Hn) as (s' & -> & ? & Ht).
    exists s'. split; [done|]. split; [done|]. rewrite Ht. simpl.
    by rewrite <- app_assoc.
Qed.

(** X2. When a handle can be had and the driver fails the request with
    [e], each of [documentExists], [addDocument] and [removeAllDocuments]
    rethrows that same [e]; the request was sent (after the await, if a
    connect was needed), and the receiver keeps the [db] handle it worked
    on: a failed request does not disconnect.  Nothing is said of the
    store after a failed insert or delete: the class only rethrows, and
    the driver may have failed after the write was applied. *)
Theorem crud_rethrows_driver_failure (field : string) (value : Value)
    (collectionName : string) (document : Document) (s : St)
    (h : Collection) (e : Error) :
  handleOf s collectionName = Some h →
  nextFault (world s) = Some e →
  (∃ s', documentExists field value collectionName s = (Throw e, s') ∧
         db (this s') = Some (coll_db h) ∧
         trace (world s')
           = trace (world s) ++ connectCalls s
               ++ [CallFindOne h (buildQuery field value)]) ∧
  (∃ s', addDocument collectionName document s = (Throw e, s') ∧
         db (this s') = Some (coll_db h) ∧
         trace (world s')
           = trace (world s) ++ connectCalls s ++ [CallInsertOne h document]) ∧
  (∃ s', removeAllDocuments collectionName s = (Throw e, s') ∧
         db (this s') = Some (coll_db h) ∧
         trace (world s')
           = trace (world s) ++ connectCalls s ++ [CallDeleteMany h ∅]).
Proof.
  intros Hh Hn. split; [|split].
  - destruct (documentExists_fault field value _ s h e Hh Hn)
      as (s' & ? & ? & _ & ?). by exists s'.
  - by apply addDocument_fault.
  - by apply removeAllDocuments_fault.
Qed.

(** A driver error can follow an applied write: the delete is rethrown as
    failed, and the collection is empty all the same. *)
Lemma failed_delete_may_have_deleted :
  length (stored (world exLostResponse) exUsers) = 2 ∧
  (removeAllDocuments "User" exLostResponse).1 = Throw exNetworkError ∧
  stored (world (removeAllDocuments "User" exLostResponse).2) exUsers = [].
Proof. vm_compute. done. Qed.

(** ** X3: the existence check only reads *)

(** X3. Whatever its outcome, [documentExists] leaves the store and the
    identifier counter as they were. *)
Theorem documentExists_read_only (field : string) (value : Value)
    (collectionName : string) (s : St) :
  store (world (documentExists field value collectionName s).2)
    = store (world s) ∧
  nextOid (world (documentExists field value collectionName s).2)
    = nextOid (world s).
Proof.
  assert (∀ s d, db (this s) = Some d →
            store (world (documentExists field value collectionName s).2)
              = store (world s) ∧
            nextOid (world (documentExists field value collectionName s).2)
              = nextOid (world s)) as Hconn.
  { clear s. intros s d Hd. rewrite (documentExists_Some _ _ _ s d Hd).
    rewrite coll_findOne_unfold.
    destruct (nextFault (world s)); simpl;
      by rewrite ?afterFault_store, ?afterFault_nextOid,
                 ?afterCall_store, ?afterCall_nextOid. }
  destruct (db (this s)) as [d|] eqn:Hd; [by apply (Hconn s d)|].
  rewrite (documentExists_None _ _ _ s Hd).
  destruct (clientPromise (world s)) as [cl|e]; [|done].
  exact (Hconn (connectedState s cl) _ eq_refl).
Qed.

(** ** X5: when an insert is refused *)

Lemma indexKey_withId w (d : Document) :
  indexKey "_id" (withId w d) =
    match d !! "_id" with
    | Some id => id
    | None => VObjectId (nextOid w)
    end.
Proof.
  unfold indexKey, withId. destruct (d !! "_id") eqn:E; [by rewrite E|].
  by rewrite lookup_insert_eq.
Qed.

Lemma indexKey_withId_other w (d : Document) f :
  f ≠ "_id" → indexKey f (withId w d) = indexKey f d.
Proof.
  intros Hf. unfold indexKey, withId. destruct (d !! "_id"); [done|].
  by rewrite lookup_insert_ne.
Qed.

Lemma addDocument_connected_effect c doc s d res s' :
  db (this s) = Some d →
  addDocument c doc s = (Return res, s') →
  let h := db_collection d c in
  insertedId res = indexKey "_id" (withId (world s) doc) ∧
  store (world s')
    = updateColl h {| docs := stored (world s) h ++ [withId (world s) doc];
                      uniq := uniq (lookupColl (store (world s)) h) |}
        (store (world s)).
Proof.
  intros Hd. rewrite (addDocument_Some c doc s d Hd). intros Hrun h.
  subst h.
  destruct (coll_insertOne _ doc (world s)) as [[res'|e] w1] eqn:Hi;
    [|done].
  pose proof (coll_insertOne_store _ _ _ _ _ Hi) as Hst.
  injection Hrun as <- <-. simpl. split; [|done].
  by destruct (coll_insertOne_returns _ _ _ _ _ Hi) as (_ & ? & _).
Qed.

(** An [addDocument] that returns has appended exactly one document to
    the named collection and has touched nothing else in the store. *)
Lemma addDocument_changes (collectionName : string) (document : Document)
    (s : St) (res : InsertOneResult) (s' : St) :
  addDocument collectionName document s = (Return res, s') →
  ∃ h, handleOf s collectionName = Some h ∧
    insertedId res
      = match document !! "_id" with
        | Some id => id
        | None => VObjectId (nextOid (world s))
        end ∧
    stored (world s') h = stored (world s) h ++ [withId (world s) document] ∧
    uniq (lookupColl (store (world s')) h)
      = uniq (lookupColl (store (world s)) h) ∧
    (∀ h', ¬ sameCollection h h' →
           lookupColl (store (world s')) h'
             = lookupColl (store (world s)) h').
Proof.
  assert (∀ s d, db (this s) = Some d →
            addDocument collectionName document s = (Return res, s') →
            let h := db_collection d collectionName in
            insertedId res
              = match document !! "_id" with
                | Some id => id
                | None => VObjectId (nextOid (world s))
                end ∧
            stored (world s') h
              = stored (world s) h ++ [withId (world s) document] ∧
            uniq (lookupColl (store (world s')) h)
              = uniq (lookupColl (store (world s)) h) ∧
            (∀ h', ¬ sameCollection h h' →
                   lookupColl (store (world s')) h'
                     = lookupColl (store (world s)) h')) as Hconn.
  { clear s. intros s d Hd Hrun.
    destruct (addDocument_connected_effect _ _ _ _ _ _ Hd Hrun) as [Hid Hst].
    cbv zeta.
    rewrite Hid, indexKey_withId. split; [done|].
    unfold stored at 1. rewrite Hst, lookupColl_updateColl. simpl.
    split; [done|]. split; [done|].
    intros h' Hne. by apply lookupColl_updateColl_other. }
  destruct (db (this s)) as [d|] eqn:Hd.
  - intros Hrun. specialize (Hconn s d Hd Hrun).
    exists (db_collection d collectionName).
    by rewrite (handleOf_Some_db s _ d Hd).
  - rewrite (addDocument_None _ _ s Hd).
    destruct (clientPromise (world s)) as [cl|e] eqn:Hp; [|done].
    intros Hrun. specialize (Hconn (connectedState s cl) _ eq_refl Hrun).
    eexists. by rewrite (handleOf_None_db s _ cl Hd Hp).
Qed.

Lemma violatesUnique_collision cl (d' old : Document) f :
  f ∈ uniq cl → old ∈ docs cl → indexKey f old = indexKey f d' →
  violatesUnique cl d' = true.
Proof.
  intros Hf Hold Hk. unfold violatesUnique. apply existsb_exists.
  exists f. split.
  - right. apply list_elem_of_In. by apply elem_of_elements.
  - unfold collides. apply existsb_exists. exists old.
    split; [by apply list_elem_of_In|]. by apply bool_decide_eq_true.
Qed.

Lemma coll_insertOne_collision h d w f old :
  nextFault w = None →
  f ∈ uniq (lookupColl (store w) h) →
  old ∈ stored w h →
  indexKey f old = indexKey f (withId w d) →
  ∃ w1, coll_insertOne h d w = (Throw duplicateKeyError, w1) ∧
        store w1 = store w.
Proof.
  intros Hn Hf Hold Hk.
  pose proof (violatesUnique_collision _ _ _ _ Hf Hold Hk) as Hv.
  unfold coll_insertOne. rewrite driverCall_unfold, Hn.
  rewrite afterCall_store, afterCall_nextOid.
  unfold withId in Hv.
  destruct (d !! "_id") eqn:E; rewrite Hv; eexists; (split; [done|]);
    simpl; by rewrite afterCall_store.
Qed.

Lemma addDocument_collision c doc s h f old :
  handleOf s c = Some h →
  nextFault (world s) = None →
  f ∈ uniq (lookupColl (store (world s)) h) →
  old ∈ stored (world s) h →
  indexKey f old = indexKey f (withId (world s) doc) →
  ∃ s', addDocument c doc s = (Throw duplicateKeyError, s') ∧
        store (world s') = store (world s).
Proof.
  unfold handleOf. intros Hh Hn Hf Hold Hk.
  destruct (db (this s)) as [d|] eqn:Hd.
  - injection Hh as <-. rewrite (addDocument_Some c doc s d Hd).
    destruct (coll_insertOne_collision _ doc _ _ _ Hn Hf Hold Hk)
      as (w1 & -> & Hst).
    eexists. split; [done|]. done.
  - rewrite (addDocument_None c doc s Hd).
    destruct (clientPromise (world s)) as [cl|e]; [|done].
    injection Hh as <-.
    rewrite (addDocument_Some c doc (connectedState s cl) _ eq_refl).
    destruct (coll_insertOne_collision
                (db_collection (client_db cl (dbName (this s))) c) doc
                (world (connectedState s cl)) f old Hn Hf Hold Hk)
      as (w1 & -> & Hst).
    eexists. split; [done|]. done.
Qed.

(** X5. On a collection with a unique index on a field [f] other than
    [_id], an [addDocument] that the driver serves is refused with the
    duplicate-key error, leaving the store unchanged, as soon as a stored
    document has the same value under [f] (a missing field counting as
    null).  In particular inserting a document and then inserting it
    again fails the second time. *)
Theorem addDocument_duplicate_key (collectionName : string)
    (document : Document) (s : St) (h : Collection) (f : string) :
  handleOf s collectionName = Some h →
  f ∈ uniq (lookupColl (store (world s)) h) →
  f ≠ "_id" →
  (∀ old,
     nextFault (world s) = None →
     old ∈ stored (world s) h →
     indexKey f old = indexKey f document →
     ∃ s', addDocument collectionName document s
             = (Throw duplicateKeyError, s') ∧
           store (world s') = store (world s)) ∧
  (∀ r s1,
     addDocument collectionName document s = (Return r, s1) →
     nextFault (world s1) = None →
     ∃ s2, addDocument collectionName document s1
             = (Throw duplicateKeyError, s2) ∧
           store (world s2) = store (world s1)).
Proof.
  intros Hh Hf Hne. split.
  - intros old Hn Hold Hk.
    apply (addDocument_collision _ _ s h f old); try done.
    by rewrite indexKey_withId_other.
  - intros r s1 Hadd Hn.
    pose proof (addDocument_changes _ _ _ _ _ Hadd) as He.
    apply addDocument_returns in Hadd as (h' & Hh' & Hdb & _ & _ & Hst & _).
    rewrite Hh in Hh'. injection Hh' as <-.
    destruct He as (h' & Hh' & _ & _ & Hu & _).
    rewrite Hh in Hh'. injection Hh' as <-.
    assert (handleOf s1 collectionName = Some h) as Hh1.
    { rewrite (handleOf_Some_db _ _ _ Hdb). f_equal.
      by apply (handleOf_eta s). }
    apply (addDocument_collision _ _ s1 h f (withId (world s) document));
      try done.
    + by rewrite Hu.
    + rewrite Hst. apply elem_of_app. right. by left.
    + by rewrite !indexKey_withId_other.
Qed.

(** ** X6: what deleting everything changes *)

(** X6. A [removeAllDocuments] that returns has emptied the named
    collection and nothing else: the unique indexes of that collection are
    still there, and every other collection is untouched. *)
Theorem removeAllDocuments_effect (collectionName : string) (s : St)
    (res : DeleteResult) (s' : St) :
  removeAllDocuments collectionName s = (Return res, s') →
  ∃ h, handleOf s collectionName = Some h ∧
    stored (world s') h = [] ∧
    uniq (lookupColl (store (world s')) h)
      = uniq (lookupColl (store (world s)) h) ∧
    (∀ h', ¬ sameCollection h h' →
           lookupColl (store (world s')) h'
             = lookupColl (store (world s)) h').
Proof.
  assert (∀ s d, db (this s) = Some d →
            removeAllDocuments collectionName s = (Return res, s') →
            let h := db_collection d collectionName in
            stored (world s') h = [] ∧
            uniq (lookupColl (store (world s')) h)
              = uniq (lookupColl (store (world s)) h) ∧
            (∀ h', ¬ sameCollection h h' →
                   lookupColl (store (world s')) h'
                     = lookupColl (store (world s)) h')) as Hconn.
  { clear s. intros s d Hd. rewrite (removeAllDocuments_Some _ s d Hd).
    rewrite coll_deleteMany_all.
    destruct (nextFault (world s)); [done|]. intros [= <- <-]; simpl.
    unfold stored. simpl. rewrite lookupColl_updateColl. simpl.
    split; [done|]. split; [done|].
    intros h' Hne. by apply lookupColl_updateColl_other. }
  destruct (db (this s)) as [d|] eqn:Hd.
  - intros Hrun. specialize (Hconn s d Hd Hrun).
    exists (db_collection d collectionName).
    by rewrite (handleOf_Some_db s _ d Hd).
  - rewrite (removeAllDocuments_None _ s Hd).
    destruct (clientPromise (world s)) as [cl|e] eqn:Hp; [|done].
    intros Hrun. specialize (Hconn (connectedState s cl) _ eq_refl Hrun).
    eexists. by rewrite (handleOf_None_db s _ cl Hd Hp).
Qed.

(** ** X7: [initDb] never rolls back *)

Lemma coll_createIndex_Return h f w n w1 :
  coll_createIndex h f w = (Return n, w1) →
  f ∈ uniq (lookupColl (store w1) h).
Proof.
  unfold coll_createIndex. rewrite driverCall_unfold.
  destruct (nextFault w); [done|]. rewrite afterCall_store.
  case_bool_decide as Hin.
  - intros [= _ <-]. by rewrite afterCall_store.
  - destruct (hasDuplicates _ _); [done|].
    intros [= _ <-]. simpl. rewrite lookupColl_updateColl. simpl. set_solver.
Qed.

Lemma issueAll_success_created h fs w i f n :
  fs !! i = Some f →
  (issueAll h fs w).1 !! i = Some (Return n) →
  f ∈ uniq (lookupColl (store (issueAll h fs w).2) h).
Proof.
  revert w i. induction fs as [|g fs IH]; intros w i Hf Hr; [done|].
  simpl in *.
  destruct (coll_createIndex h g w) as [r w1] eqn:Hc.
  pose proof (issueAll_uniq_mono h fs w1) as Hmono.
  specialize (IH w1).
  destruct (issueAll h fs w1) as [rs w2]. simpl in *.
  destruct i as [|i]; simpl in *.
  - injection Hf as ->. injection Hr as ->.
    apply Hmono. by eapply coll_createIndex_Return.
  - by eapply IH.
Qed.

(** X7. Take an [initDb] that has to connect and whose [clientPromise]
    resolves.  Whether it then returns or throws, nothing is rolled back:
    every unique index the collection had is still there, and every field
    whose own request was answered with success has its unique index in
    the store, also when the request of another field failed fatally. *)
Theorem initDb_keeps_partial_progress (indexes : list string)
    (collectionName : string) (s : St) (cl : MongoClient) :
  db (this s) = None →
  clientPromise (world s) = Return cl →
  let h := db_collection (client_db cl (dbName (this s))) collectionName in
  let sent := issueAll h indexes (record_call AwaitClientPromise (world s)) in
  let after := store (world (initDb indexes collectionName s).2) in
  (∀ g, g ∈ uniq (lookupColl (store (world s)) h) →
        g ∈ uniq (lookupColl after h)) ∧
  (∀ i f n, indexes !! i = Some f → sent.1 !! i = Some (Return n) →
            f ∈ uniq (lookupColl after h)).
Proof.
  intros Hd Hp h sent after.
  pose proof (initDb_None_resolved indexes collectionName s cl Hd Hp) as H.
  cbv zeta in H. fold h sent in H.
  assert (after = store sent.2) as ->.
  { unfold after. destruct sent as [rs w1]. by destruct H as [ls ->]. }
  split.
  - intros g Hg.
    by apply (issueAll_uniq_mono h indexes
                (record_call AwaitClientPromise (world s))).
  - intros i f n Hf Hr. by eapply issueAll_success_created.
Qed.

(** ** X8: [initCollection] stops at the first failure *)

Lemma forEach_app {A} (g : A → Eff unit) l1 l2 s :
  forEach g (l1 ++ l2) s =
    match forEach g l1 s with
    | (Return _, s1) => forEach g l2 s1
    | (Throw e, s1) => (Throw e, s1)
    end.
Proof.
  revert s. induction l1 as [|a l1 IH]; intros s; simpl; [done|].
  unfold bind. destruct (g a s) as [[u|e] s1]; [apply IH|done].
Qed.

(** What [initCollection] does once the lazy connect is behind it. *)
Lemma initCollection_body indexes c s :
  initCollection indexes c s =
    match db (this s) with
    | Some _ =>
      match forEach (λ field, createUniqueIndex field c) indexes s with
      | (Return _, s1) => (Return (db (this s1)), s1)
      | (Throw e, s1) =>
        (Throw e, withWorld s1 (print LvlError (MsgErrorInitializingCollection e)
                                  (world s1)))
      end
    | None =>
      match clientPromise (world s) with
      | Return cl =>
        match forEach (λ field, createUniqueIndex field c) indexes
                (connectedState s cl) with
        | (Return _, s1) => (Return (db (this s1)), s1)
        | (Throw e, s1) =>
          (Throw e, withWorld s1 (print LvlError (MsgErrorInitializingCollection e)
                                    (world s1)))
        end
      | Throw e => (Throw e, connectFailedState s e)
      end
    end.
Proof.
  unfold initCollection. rewrite lazy_connect_then.
  unfold bind, try_catch.
  destruct (db (this s)).
  - by destruct (forEach _ indexes s) as [[u|e] s1].
  - destruct (clientPromise (world s)) as [cl|e]; [|done].
    by destruct (forEach _ indexes (connectedState s cl)) as [[u|e] s1].
Qed.

(** X8. If [initCollection] returns on the fields [pre], leaving the
    state [s1], and [createUniqueIndex] for a further field [f] throws
    [e] from there, then [initCollection] on [pre], [f] and any further
    fields [post] rethrows [e], and no request for a field of [post] is
    sent: the driver has seen exactly what it had seen when [f] failed.
    The indexes created for [pre] stay. *)
Theorem initCollection_stops_at_first_failure (pre : list string) (f : string)
    (post : list string) (collectionName : string)
    (s : St) (r : option Db) (s1 : St) (e : Error) (s2 : St) :
  initCollection pre collectionName s = (Return r, s1) →
  createUniqueIndex f collectionName s1 = (Throw e, s2) →
  ∃ s', initCollection (pre ++ f :: post) collectionName s = (Throw e, s') ∧
        this s' = this s2 ∧
        driverView (world s') = driverView (world s2).
Proof.
  rewrite !initCollection_body. intros Hpre Hf.
  assert (∀ s0,
            match forEach (λ field, createUniqueIndex field collectionName)
                    pre s0 with
            | (Return _, s1') => (Return (db (this s1')), s1')
            | (Throw e', s1') =>
              (Throw e',
               withWorld s1' (print LvlError (MsgErrorInitializingCollection e')
                                (world s1')))
            end = (Return r, s1) →
            forEach (λ field, createUniqueIndex field collectionName)
              (pre ++ f :: post) s0 = (Throw e, s2)) as Hrun.
  { intros s0 H0. rewrite forEach_app.
    destruct (forEach _ pre s0) as [[u|e'] s1']; [|done].
    injection H0 as _ <-. simpl. unfold bind. by rewrite Hf. }
  destruct (db (this s)).
  - rewrite (Hrun s Hpre). by eexists.
  - destruct (clientPromise (world s)) as [cl|e']; [|done].
    rewrite (Hrun _ Hpre). by eexists.
Qed.

(** ** X9: running [initCollection] again *)

Lemma issueAll_faults_nil h fs w :
  faults w = [] → faults (issueAll h fs w).2 = [].
Proof.
  revert w. induction fs as [|f fs IH]; intros w Hf; simpl; [done|].
  pose proof (coll_createIndex_faults_nil h f w Hf) as H1.
  destruct (coll_createIndex h f w) as [r w1]. simpl in H1.
  specialize (IH w1 H1). by destruct (issueAll h fs w1).
Qed.

(** Requests for indexes that all exist, with no failure scheduled, are all
    answered with success and change nothing in the store. *)
Lemma issueSeq_noop h fs w :
  faults w = [] →
  (∀ f, f ∈ fs → f ∈ uniq (lookupColl (store w) h)) →
  (issueSeq h fs w).1 = None ∧ store (issueSeq h fs w).2 = store w.
Proof.
  revert w. induction fs as [|f fs IH]; intros w Hf Hall; simpl; [done|].
  rewrite coll_createIndex_again;
    [|by apply nextFault_nil|apply Hall; by left].
  simpl.
  destruct (IH (afterCall (CallCreateIndex h f true) w)) as [H1 H2].
  - unfold afterCall. by rewrite Hf.
  - intros g Hg. rewrite afterCall_store. apply Hall. by right.
  - by rewrite H2, afterCall_store.
Qed.

(** X9. With a driver that schedules no failure, an [initCollection]
    that has returned can be run again on the same fields: the second run
    returns the same handle and changes neither the receiver nor the
    store, every request being answered as an index that exists. *)
Theorem initCollection_rerun (indexes : list string) (collectionName : string)
    (s : St) (r : option Db) (s1 : St) :
  faults (world s) = [] →
  initCollection indexes collectionName s = (Return r, s1) →
  ∃ s2, initCollection indexes collectionName s1 = (Return r, s2) ∧
        this s2 = this s1 ∧
        store (world s2) = store (world s1).
Proof.
  intros Hf.
  assert (∀ s0 d, db (this s0) = Some d → faults (world s0) = [] →
            initCollection indexes collectionName s0 = (Return r, s1) →
            ∃ s2, initCollection indexes collectionName s1 = (Return r, s2) ∧
                  this s2 = this s1 ∧ store (world s2) = store (world s1))
    as Hconn.
  { intros s0 d Hd Hf0 Hrun.
    pose proof (initCollection_Some indexes collectionName s0 d Hd) as H1.
    pose proof (issueSeq_issueAll (db_collection d collectionName) indexes
                  (world s0)) as (Hres & Hsame & _).
    pose proof (issueAll_created (db_collection d collectionName) indexes
                  (world s0) Hf0) as Hcr.
    pose proof (issueAll_faults_nil (db_collection d collectionName) indexes
                  (world s0) Hf0) as Hfn.
    destruct (issueSeq _ indexes (world s0)) as [e w1]. simpl in *.
    destruct H1 as [ls H1]. rewrite H1 in Hrun.
    destruct e as [e|]; [done|]. injection Hrun as <- <-.
    symmetry in Hres. specialize (Hsame Hres). specialize (Hcr Hres).
    rewrite <- Hsame in Hcr, Hfn.
    pose proof (initCollection_Some indexes collectionName
                  (withWorld s0 (prints ls w1)) d Hd) as H2.
    simpl in H2. rewrite issueSeq_prints in H2.
    destruct (issueSeq_noop (db_collection d collectionName) indexes w1
                Hfn Hcr) as [Hn Hst].
    destruct (issueSeq _ indexes w1) as [e' w2]. simpl in *. subst e'.
    destruct H2 as [ls2 ->]. eexists. split; [done|]. done. }
  destruct (db (this s)) as [d|] eqn:Hd; [by apply (Hconn s d)|].
  rewrite (initCollection_None _ _ s Hd).
  destruct (clientPromise (world s)) as [cl|e]; [|done].
  by apply (Hconn (connectedState s cl) _ eq_refl).
Qed.

(** ** X10: a connected receiver stays as it is *)

Lemma steady_ret {A} (a : A) : steady (ret a).
Proof. intros s _. repeat split; try done. exists []. by rewrite app_nil_r. Qed.

Lemma steady_throw {A} e : steady (@throw A e).
Proof. intros s _. repeat split; try done. exists []. by rewrite app_nil_r. Qed.

Lemma steady_getThis : steady getThis.
Proof. intros s _. repeat split; try done. exists []. by rewrite app_nil_r. Qed.

Lemma steady_console_log m : steady (console_log m).
Proof. intros s _. repeat split; try done. exists []. by rewrite app_nil_r. Qed.

Lemma steady_console_warn m : steady (console_warn m).
Proof. intros s _. repeat split; try done. exists []. by rewrite app_nil_r. Qed.

Lemma steady_console_error m : steady (console_error m).
Proof. intros s _. repeat split; try done. exists []. by rewrite app_nil_r. Qed.

Lemma steady_await {A} (call : World → Outcome A * World) ev :
  isRequest ev = true →
  (∀ w, clientPromise (call w).2 = clientPromise w) →
  (∀ w, trace (call w).2 = trace w ++ [ev]) →
  steady (await call).
Proof.
  intros Hev Hcp Htr s _. unfold await.
  specialize (Hcp (world s)). specialize (Htr (world s)).
  destruct (call (world s)) as [r w1]. simpl in *.
  split; [done|]. split; [done|]. exists [ev]. split; [done|].
  by apply Forall_singleton.
Qed.

Lemma steady_createIndex h f : steady (await (coll_createIndex h f)).
Proof.
  apply (steady_await _ (CallCreateIndex h f true)); [done|..].
  - apply coll_createIndex_clientPromise.
  - apply coll_createIndex_trace'.
Qed.

Lemma steady_findOne h q : steady (await (coll_findOne h q)).
Proof.
  apply (steady_await _ (CallFindOne h q)); [done|..].
  - apply coll_findOne_clientPromise.
  - apply coll_findOne_trace.
Qed.

Lemma steady_insertOne h d : steady (await (coll_insertOne h d)).
Proof.
  apply (steady_await _ (CallInsertOne h d)); [done|..].
  - apply coll_insertOne_clientPromise.
  - apply coll_insertOne_trace.
Qed.

Lemma steady_deleteMany h q : steady (await (coll_deleteMany h q)).
Proof.
  apply (steady_await _ (CallDeleteMany h q)); [done|..].
  - apply coll_deleteMany_clientPromise.
  - apply coll_deleteMany_trace.
Qed.

Lemma steady_bind {A B} (m : Eff A) (k : A → Eff B) :
  steady m → (∀ a, steady (k a)) → steady (bind m k).
Proof.
  intros Hm Hk s Hs. unfold bind.
  destruct (Hm s Hs) as (Hthis & Hcp & evs & Htr & Hevs).
  destruct (m s) as [[a|e] s1]; simpl in *; [|eauto 10].
  assert (connected s1) as Hs1 by (unfold connected; by rewrite Hthis).
  destruct (Hk a s1 Hs1) as (Hthis2 & Hcp2 & evs2 & Htr2 & Hevs2).
  split; [congruence|]. split; [congruence|].
  exists (evs ++ evs2). split.
  - by rewrite Htr2, Htr, <- app_assoc.
  - by apply Forall_app.
Qed.

Lemma steady_try_catch {A} (m : Eff A) (h : Error → Eff A) :
  steady m → (∀ e, steady (h e)) → steady (try_catch m h).
Proof.
  intros Hm Hh s Hs. unfold try_catch.
  destruct (Hm s Hs) as (Hthis & Hcp & evs & Htr & Hevs).
  destruct (m s) as [[a|e] s1]; simpl in *; [eauto 10|].
  assert (connected s1) as Hs1 by (unfold connected; by rewrite Hthis).
  destruct (Hh e s1 Hs1) as (Hthis2 & Hcp2 & evs2 & Htr2 & Hevs2).
  split; [congruence|]. split; [congruence|].
  exists (evs ++ evs2). split.
  - by rewrite Htr2, Htr, <- app_assoc.
  - by apply Forall_app.
Qed.

Lemma steady_forEach {A} (f : A → Eff unit) l :
  (∀ a, steady (f a)) → steady (forEach f l).
Proof.
  intros Hf. induction l as [|a l IH]; simpl.
  - apply steady_ret.
  - apply steady_bind; [apply Hf|by intros _].
Qed.

Lemma steady_connectDb : steady connectDb.
Proof.
  intros s [[c Hc] [d Hd]]. rewrite (connectDb_connected s c d Hc Hd). simpl.
  repeat split; try done. exists []. by rewrite app_nil_r.
Qed.

Lemma steady_getCollection c : steady (getCollection c).
Proof.
  intros s [_ [d Hd]]. rewrite (getCollection_Some c s d Hd). simpl.
  repeat split; try done. exists []. by rewrite app_nil_r.
Qed.

Create HintDb steadies.

#[local] Hint Resolve steady_ret steady_throw steady_getThis
  steady_console_log steady_console_warn steady_console_error
  steady_createIndex steady_findOne steady_insertOne steady_deleteMany
  steady_connectDb steady_getCollection : steadies.

Ltac steadies :=
  repeat first
    [ progress intros
    | match goal with
      | |- steady (if ?b then _ else _) => destruct b
      end
    | solve [auto 1 with steadies]
    | apply steady_bind
    | apply steady_try_catch
    | apply steady_forEach ].

Lemma steady_createUniqueIndex f c : steady (createUniqueIndex f c).
Proof. unfold createUniqueIndex, createUniqueIndex_catch. steadies. Qed.

#[local] Hint Resolve steady_createUniqueIndex : steadies.

Lemma steady_initCollection indexes c : steady (initCollection indexes c).
Proof. unfold initCollection. steadies. Qed.

Lemma steady_documentExists f v c : steady (documentExists f v c).
Proof. unfold documentExists. steadies. Qed.

Lemma steady_addDocument c d : steady (addDocument c d).
Proof. unfold addDocument. steadies. Qed.

Lemma steady_removeAllDocuments c : steady (removeAllDocuments c).
Proof. unfold removeAllDocuments. steadies. Qed.

Lemma steady_initDb indexes c : steady (initDb indexes c).
Proof.
  intros s [_ [d Hd]]. rewrite (initDb_Some _ _ s d Hd). simpl.
  repeat split; try done. exists []. by rewrite app_nil_r.
Qed.

Lemma perform_steady (m : Method) (s : St) :
  connected s →
  this (perform m s) = this s ∧
  clientPromise (world (perform m s)) = clientPromise (world s) ∧
  ∃ evs, trace (world (perform m s)) = trace (world s) ++ evs ∧
         Forall (λ ev, isRequest ev = true) evs.
Proof.
  intros Hs. destruct m; simpl.
  - by apply steady_initDb.
  - by apply steady_initCollection.
  - by apply steady_documentExists.
  - by apply steady_addDocument.
  - by apply steady_removeAllDocuments.
Qed.

(** X10. On a receiver whose client and db handle are set, no public
    method touches the receiver: the handles stay the very same, the
    module's [clientPromise] is not awaited again, the client is not closed,
    and all that reaches the driver are requests on collections. *)
Theorem public_method_keeps_connection (m : Method) (s : St) :
  connected s →
  this (perform m s) = this s ∧
  clientPromise (world (perform m s)) = clientPromise (world s) ∧
  ∃ evs, trace (world (perform m s)) = trace (world s) ++ evs ∧
         Forall (λ ev, isRequest ev = true) evs.
Proof. apply perform_steady. Qed.

(** ** X11: one connect per process *)

Lemma Forall_isRequest_createIndex h (fs : list string) :
  Forall (λ ev, isRequest ev = true) (map (λ f, CallCreateIndex h f true) fs).
Proof. apply Forall_forall. intros ev (f & -> & _)%list_elem_of_fmap. done. Qed.

(** The first public call on a receiver fresh from the constructor, with a
    [clientPromise] that resolved. *)
Lemma perform_fresh m s cl :
  db (this s) = None →
  clientPromise (world s) = Return cl →
  this (perform m s) = connectedTo (dbName (this s)) cl ∧
  clientPromise (world (perform m s)) = Return cl ∧
  ∃ reqs, trace (world (perform m s))
            = trace (world s) ++ AwaitClientPromise :: reqs ∧
          Forall (λ ev, isRequest ev = true) reqs.
Proof.
  intros Hd Hp.
  assert (connected (connectedState s cl)) as Hc.
  { split; simpl; eauto. }
  assert (∀ A (k : Eff A), steady k →
            this (k (connectedState s cl)).2 = connectedTo (dbName (this s)) cl ∧
            clientPromise (world (k (connectedState s cl)).2) = Return cl ∧
            ∃ reqs, trace (world (k (connectedState s cl)).2)
                      = trace (world s) ++ AwaitClientPromise :: reqs ∧
                    Forall (λ ev, isRequest ev = true) reqs) as Hk.
  { intros A k Hst. destruct (Hst _ Hc) as (-> & -> & evs & -> & Hevs).
    simpl. split; [done|]. split; [done|]. exists evs.
    split; [by rewrite <- app_assoc|done]. }
  destruct m; simpl.
  - pose proof (initDb_None_resolved indexes collectionName s cl Hd Hp) as H.
    cbv zeta in H.
    pose proof (issueAll_trace
                  (db_collection (client_db cl (dbName (this s))) collectionName)
                  indexes (record_call AwaitClientPromise (world s))) as Ht.
    pose proof (issueAll_clientPromise
                  (db_collection (client_db cl (dbName (this s))) collectionName)
                  indexes (record_call AwaitClientPromise (world s))) as Hcp.
    destruct (issueAll _ _ _) as [rs w1]. destruct H as [ls ->]. simpl in *.
    split; [done|]. split; [by rewrite Hcp|].
    eexists. split; [by rewrite Ht, <- app_assoc|].
    apply Forall_isRequest_createIndex.
  - rewrite (initCollection_None _ _ s Hd), Hp.
    apply Hk, steady_initCollection.
  - rewrite (documentExists_None _ _ _ s Hd), Hp.
    apply Hk, steady_documentExists.
  - rewrite (addDocument_None _ _ s Hd), Hp.
    apply Hk, steady_addDocument.
  - rewrite (removeAllDocuments_None _ s Hd), Hp.
    apply Hk, steady_removeAllDocuments.
Qed.

Lemma runInv_step name cl w x y :
  step x y → runInv name cl w x → runInv name cl w y.
Proof.
  intros [n p w0|m r o p w0 Hi Hr]; unfold runInv; simpl.
  - intros (Hi & H). unfold getInstance. by rewrite Hi.
  - intros (Hi' & Hp & o' & evs & Hheap & Htr & Hcase).
    rewrite Hi in Hi'. injection Hi' as ->.
    rewrite Hheap in Hr. injection Hr as ->. rewrite Hheap. simpl.
    split; [done|].
    destruct Hcase as [[-> ->]|(-> & reqs & -> & Hreqs)].
    + destruct (perform_fresh m {| this := new_DataBase name; world := w0 |} cl
                  eq_refl Hp) as (Hthis & Hcp & reqs & Htr' & Hreqs).
      split; [done|]. eexists _, (AwaitClientPromise :: reqs).
      split; [done|]. split.
      * rewrite Htr'. simpl. rewrite Htr. by rewrite app_nil_r.
      * right. split; [exact Hthis|]. by exists reqs.
    + destruct (perform_steady m
                  {| this := connectedTo name cl; world := w0 |})
        as (Hthis & Hcp & evs & Htr' & Hevs).
      { split; simpl; eauto. }
      split; [by rewrite Hcp|].
      eexists _, (AwaitClientPromise :: reqs ++ evs).
      split; [done|]. split.
      * rewrite Htr'. simpl. rewrite Htr. by rewrite <- app_assoc.
      * right. split; [exact Hthis|]. exists (reqs ++ evs).
        split; [done|]. by apply Forall_app.
Qed.

Lemma runInv_rtc name cl w x y :
  rtc step x y → runInv name cl w x → runInv name cl w y.
Proof. induction 1; eauto using runInv_step. Qed.

(** X11. Take a process that starts without an instance, whose
    [clientPromise] resolved to [cl], and in which [getInstance] and the
    public methods are called one after the other, every call awaited
    before the next is made (calls that overlap are not covered: two first
    calls that overlap each await [clientPromise]).  Whatever these calls
    are: there is one object; until a method has run it is as constructed
    and the driver has seen nothing; afterwards it holds [cl] and the db
    handle of [cl] for the first caller's name, and what the driver has
    seen is one await of [clientPromise] followed by requests only.  So in
    such a run the connection is set up once, and is never closed or
    replaced. *)
Theorem connects_once (name : string) (cl : MongoClient) (w : World)
    (p' : Process) (w' : World) :
  clientPromise w = Return cl →
  rtc step ((getInstance name initialProcess).2, w) (p', w') →
  ∃ o evs, heap p' = [o] ∧ trace w' = trace w ++ evs ∧
    ((o = new_DataBase name ∧ evs = []) ∨
     (o = connectedTo name cl ∧
      ∃ reqs, evs = AwaitClientPromise :: reqs ∧
              Forall (λ ev, isRequest ev = true) reqs)).
Proof.
  intros Hp Hrtc.
  destruct (runInv_rtc name cl w _ _ Hrtc) as (_ & _ & H); [|exact H].
  split; [done|]. split; [done|].
  exists (new_DataBase name), []. split; [done|].
  split; [by rewrite app_nil_r|]. by left.
Qed.

(** ** X12: disconnecting and connecting again *)

(** X12. Take a receiver connected to the client [clientPromise]
    resolved to, and a driver that serves [close].  [disconnectDb] returns
    and leaves the receiver as the constructor made it; a second
    [disconnectDb] then returns without calling the driver; and a
    [connectDb] after the first one restores the receiver exactly, the
    driver having seen one [close] and one await. *)
Theorem disconnect_connect_round_trip (s : St) (cl : MongoClient) :
  client (this s) = Some cl →
  db (this s) = Some (client_db cl (dbName (this s))) →
  clientPromise (world s) = Return cl →
  nextFault (world s) = None →
  let s1 := (disconnectDb s).2 in
  let s2 := (connectDb s1).2 in
  (disconnectDb s).1 = Return tt ∧
  this s1 = new_DataBase (dbName (this s)) ∧
  (disconnectDb s1).1 = Return tt ∧
  this (disconnectDb s1).2 = this s1 ∧
  trace (world (disconnectDb s1).2) = trace (world s1) ∧
  (connectDb s1).1 = Return tt ∧
  this s2 = this s ∧
  trace (world s2) = trace (world s) ++ [CallClose cl; AwaitClientPromise].
Proof.
  intros Hc Hd Hp Hn s1 s2. subst s2 s1.
  rewrite (disconnectDb_Some s cl Hc).
  unfold client_close. rewrite driverCall_unfold, Hn. cbn [fst snd].
  set (s1 := {| this := _; world := _ |}).
  rewrite (disconnectDb_None s1 eq_refl), (connectDb_None s1 eq_refl).
  assert (clientPromise (world s1) = Return cl) as ->.
  { simpl. by rewrite afterCall_clientPromise. }
  simpl. repeat split; try done.
  - destruct s as [[n c d] w0]. simpl in *. by subst.
  - by rewrite afterCall_trace, <- app_assoc.
Qed.

(** ** X13: a process that cannot connect *)

Lemma rejectedInv_step name e w x y :
  step x y → rejectedInv name e w x → rejectedInv name e w y.
Proof.
  intros [n p w0|m r o p w0 Hi Hr]; unfold rejectedInv; simpl.
  - intros (Hi & H). unfold getInstance. by rewrite Hi.
  - intros (Hi' & Hp & Hheap & Hst & evs & Htr & Hevs).
    rewrite Hi in Hi'. injection Hi' as ->.
    rewrite Hheap in Hr. injection Hr as <-. rewrite Hheap. simpl.
    destruct (perform_rejected m {| this := new_DataBase name; world := w0 |} e
                eq_refl Hp) as (_ & Hthis & Hst' & Hcp & Htr').
    simpl in Hthis, Hst', Htr'.
    split; [done|]. split; [done|]. split; [by rewrite Hthis|].
    split; [by rewrite Hst'|].
    exists (evs ++ [AwaitClientPromise]). split.
    + by rewrite Htr', Htr, <- app_assoc.
    + apply Forall_app. split; [done|]. by apply Forall_singleton.
Qed.

Lemma rejectedInv_rtc name e w x y :
  rtc step x y → rejectedInv name e w x → rejectedInv name e w y.
Proof. induction 1; eauto using rejectedInv_step. Qed.

(** X13. In a process that starts without an instance and whose
    [clientPromise] was rejected, however [getInstance] and the public
    methods are then called: the one object stays as the constructor made
    it, the store is never changed, and no request ever reaches the driver,
    which sees awaits of [clientPromise] and nothing else. *)
Theorem never_requests_without_connection (name : string) (e : Error)
    (w : World) (p' : Process) (w' : World) :
  clientPromise w = Throw e →
  rtc step ((getInstance name initialProcess).2, w) (p', w') →
  heap p' = [new_DataBase name] ∧
  store w' = store w ∧
  ∃ evs, trace w' = trace w ++ evs ∧
         Forall (λ ev, ev = AwaitClientPromise) evs.
Proof.
  intros Hp Hrtc.
  destruct (rejectedInv_rtc name e w _ _ Hrtc) as (_ & _ & H1 & H2 & H3);
    [|done].
  split; [done|]. split; [done|]. split; [done|]. split; [done|].
  exists []. split; [by rewrite app_nil_r|done].
Qed.

(** ** X14: finding a document by the identifier of its insert *)

(** X14. The [insertedId] an [addDocument] reports names the stored
    document: when the driver serves the query, a following
    [documentExists] on the field [_id] with that identifier, on the same
    collection, answers true. *)
Theorem documentExists_by_insertedId (collectionName : string)
    (document : Document) (s : St) (r : InsertOneResult) (s1 : St) :
  addDocument collectionName document s = (Return r, s1) →
  nextFault (world s1) = None →
  ∃ s2, documentExists "_id" (insertedId r) collectionName s1
          = (Return true, s2).
Proof.
  intros Hadd Hn.
  apply addDocument_returns in Hadd as (h & Hh & Hdb & _ & Hid & Hst & _).
  assert (handleOf s1 collectionName = Some h) as Hh1.
  { rewrite (handleOf_Some_db _ _ _ Hdb). f_equal.
    by apply (handleOf_eta s). }
  destruct (documentExists_served "_id" (insertedId r) _ s1 h Hh1 Hn)
    as (s2 & ->).
  assert (truthy (find (matches (buildQuery "_id" (insertedId r)))
                    (stored (world s1) h)) = true) as ->; [|eauto].
  apply find_matches_buildQuery. exists (withId (world s) document).
  split.
  - rewrite Hst. apply elem_of_app. right. by left.
  - by rewrite Hid.
Qed.

(** ** X15: [initDb] after a first call *)

(** X15. Once any public method has run on a receiver that had no [db]
    handle, with a [clientPromise] that resolved, a following [initDb]
    creates nothing: it returns the db handle and sends no request,
    whatever the first call was and however it ended.  In particular an
    [initDb] that threw on a failed index, run again, does not ask for
    that index again. *)
Theorem initDb_after_first_call (m : Method) (indexes : list string)
    (collectionName : string) (s : St) (cl : MongoClient) :
  db (this s) = None →
  clientPromise (world s) = Return cl →
  let s1 := perform m s in
  ∃ s2, initDb indexes collectionName s1
          = (Return (Some (client_db cl (dbName (this s)))), s2) ∧
        this s2 = this s1 ∧
        driverView (world s2) = driverView (world s1).
Proof.
  intros Hd Hp s1.
  destruct (perform_fresh m s cl Hd Hp) as (Hthis & _).
  assert (db (this s1) = Some (client_db cl (dbName (this s)))) as Hd1.
  { unfold s1. by rewrite Hthis. }
  rewrite (initDb_Some _ _ s1 _ Hd1). by eexists.
Qed.

(** ** X16: two connects that overlap *)

(** The method is its start followed by its continuation. *)
Lemma connectDb_split s :
  connectDb s = (let! p := connectDb_start in p) s.
Proof.
  unfold connectDb, connectDb_start, connectDb_resume, bind, getThis.
  cbn beta iota.
  destruct (truthy (client (this s)) && truthy (db (this s))); [done|].
  unfold try_catch, bind, await_clientPromise. simpl.
  by destruct (clientPromise (world s)).
Qed.

Lemma connectDb_start_fresh s :
  truthy (client (this s)) && truthy (db (this s)) = false →
  connectDb_start s
    = (Return (connectDb_resume (clientPromise (world s))),
       withWorld s (record_call AwaitClientPromise (world s))).
Proof.
  intros H. unfold connectDb_start, bind, getThis. by rewrite H.
Qed.

Lemma connectDb_resume_resolved cl s :
  connectDb_resume (Return cl) s
    = (Return tt,
       {| this := connectedTo (dbName (this s)) cl;
          world := print LvlLog (MsgConnected (dbName (this s))) (world s) |}).
Proof. reflexivity. Qed.

Lemma connectDb_resume_rejected e s :
  connectDb_resume (Throw e) s
    = (Throw e,
       withWorld s (print LvlError (MsgFailedToConnect (dbName (this s)) e)
                      (world s))).
Proof. reflexivity. Qed.

(** X16. Two calls of [connectDb] on a receiver that is not connected,
    the second made while the first is waiting for [clientPromise]: both
    pass the test of the fields and both wait, so the driver's side sees
    two awaits.  Whichever continuation then runs first, the two calls end
    alike.  If [clientPromise] resolved to [cl], both return and the fields
    end as a single [connectDb] leaves them, bound to [cl]: the second
    assignment repeats the first, and no second client comes into being.
    If it was rejected, both rethrow the error and the fields stay as they
    were.  Nothing else reaches the driver. *)
Theorem overlapping_connects (s : St) :
  truthy (client (this s)) && truthy (db (this s)) = false →
  ∃ p1 p2,
    connectDb_start s
      = (Return p1, withWorld s (record_call AwaitClientPromise (world s))) ∧
    connectDb_start (withWorld s (record_call AwaitClientPromise (world s)))
      = (Return p2, bothWaiting s) ∧
    ∀ first second,
      (first = p1 ∧ second = p2) ∨ (first = p2 ∧ second = p1) →
      let after := (second (first (bothWaiting s)).2).2 in
      trace (world after)
        = trace (world s) ++ [AwaitClientPromise; AwaitClientPromise] ∧
      store (world after) = store (world s) ∧
      match clientPromise (world s) with
      | Return cl =>
        (first (bothWaiting s)).1 = Return tt ∧
        (second (first (bothWaiting s)).2).1 = Return tt ∧
        this after = connectedTo (dbName (this s)) cl ∧
        this after = this (connectDb s).2
      | Throw e =>
        (first (bothWaiting s)).1 = Throw e ∧
        (second (first (bothWaiting s)).2).1 = Throw e ∧
        this after = this s
      end.
Proof.
  intros H.
  exists (connectDb_resume (clientPromise (world s))),
         (connectDb_resume (clientPromise (world s))).
  split; [by apply connectDb_start_fresh|].
  split; [by rewrite connectDb_start_fresh|].
  intros first second Horder.
  assert (first = connectDb_resume (clientPromise (world s)) ∧
          second = connectDb_resume (clientPromise (world s))) as [-> ->].
  { by destruct Horder as [[-> ->]|[-> ->]]. }
  rewrite (connectDb_fresh s H).
  destruct (clientPromise (world s)) as [cl|e].
  - rewrite !connectDb_resume_resolved. simpl.
    by rewrite <- app_assoc.
  - rewrite !connectDb_resume_rejected. simpl.
    by rewrite <- app_assoc.
Qed.

(** ** Instances of the further properties *)

Lemma public_method_connection_failure_witness :
  db (this exRejected) = None ∧
  clientPromise (world exRejected) = Throw exNetworkError ∧
  fails (MAddDocument "User" exDocument) exRejected = Some exNetworkError ∧
  trace (world (perform (MAddDocument "User" exDocument) exRejected))
    = [AwaitClientPromise].
Proof.
  split; [reflexivity|]. split; [reflexivity|].
  destruct (public_method_connection_failure (MAddDocument "User" exDocument)
              exRejected exNetworkError eq_refl eq_refl) as (H1 & _ & _ & H2).
  split; [exact H1|exact H2].
Defined.

Lemma crud_rethrows_driver_failure_witness :
  handleOf exFailing "User" = Some exUsers ∧
  nextFault (world exFailing) = Some exNetworkError ∧
  (∃ s', addDocument "User" exDocument exFailing = (Throw exNetworkError, s') ∧
         db (this s') = Some exDb ∧
         trace (world s') = [CallInsertOne exUsers exDocument]) ∧
  (∃ s', removeAllDocuments "User" exFailing = (Throw exNetworkError, s') ∧
         db (this s') = Some exDb ∧
         trace (world s') = [CallDeleteMany exUsers ∅]).
Proof.
  split; [reflexivity|]. split; [reflexivity|].
  destruct (crud_rethrows_driver_failure "email" (VString "a@x.com") "User"
              exDocument exFailing exUsers exNetworkError eq_refl eq_refl)
    as (_ & (s1 & H1 & Hd1 & Ht1) & (s2 & H2 & Hd2 & Ht2)).
  split.
  - exists s1. split; [exact H1|]. split; [exact Hd1|exact Ht1].
  - exists s2. split; [exact H2|]. split; [exact Hd2|exact Ht2].
Defined.

Lemma addDocument_duplicate_key_witness :
  handleOf exIndexed "User" = Some exUsers ∧
  uniq (lookupColl (store (world exIndexed)) exUsers) = {["email"]} ∧
  (addDocument "User" exDocument exIndexed).1
    = Return {| ins_acknowledged := true; insertedId := VObjectId 0 |} ∧
  ∃ s2, addDocument "User" exDocument
          (addDocument "User" exDocument exIndexed).2
          = (Throw duplicateKeyError, s2).
Proof.
  assert (uniq (lookupColl (store (world exIndexed)) exUsers) = {["email"]})
    as Hu by (vm_compute; reflexivity).
  assert ("email" ∈ uniq (lookupColl (store (world exIndexed)) exUsers))
    as Hin by (rewrite Hu; by apply elem_of_singleton).
  split; [reflexivity|]. split; [exact Hu|].
  split; [reflexivity|].
  destruct (proj2 (addDocument_duplicate_key "User" exDocument exIndexed
                     exUsers "email" eq_refl Hin ltac:(discriminate))
              {| ins_acknowledged := true; insertedId := VObjectId 0 |}
              (addDocument "User" exDocument exIndexed).2)
    as (s2 & H & _).
  - vm_compute. reflexivity.
  - reflexivity.
  - exists s2. exact H.
Defined.

Lemma removeAllDocuments_effect_witness :
  (removeAllDocuments "User" (addDocument "User" exDocument exIndexed).2).1
    = Return {| del_acknowledged := true; deletedCount := 1 |} ∧
  ∃ h, stored (world (removeAllDocuments "User"
                        (addDocument "User" exDocument exIndexed).2).2) h = [] ∧
       uniq (lookupColl
               (store (world (removeAllDocuments "User"
                                (addDocument "User" exDocument exIndexed).2).2)) h)
         = uniq (lookupColl
                   (store (world (addDocument "User" exDocument exIndexed).2)) h).
Proof.
  split; [reflexivity|].
  destruct (removeAllDocuments_effect "User"
              (addDocument "User" exDocument exIndexed).2
              {| del_acknowledged := true; deletedCount := 1 |}
              (removeAllDocuments "User"
                 (addDocument "User" exDocument exIndexed).2).2)
    as (h & _ & Hst & Hu & _).
  - vm_compute. reflexivity.
  - exists h. split; [exact Hst|exact Hu].
Defined.

Lemma initDb_keeps_partial_progress_witness :
  db (this exFlaky) = None ∧
  clientPromise (world exFlaky) = Return exClient ∧
  (initDb ["email"; "name"] "User" exFlaky).1 = Throw exNetworkError ∧
  "email" ∈ uniq (lookupColl
                    (store (world (initDb ["email"; "name"] "User" exFlaky).2))
                    exUsers).
Proof.
  split; [reflexivity|]. split; [reflexivity|]. split; [reflexivity|].
  apply (proj2 (initDb_keeps_partial_progress ["email"; "name"] "User" exFlaky
                  exClient eq_refl eq_refl) 0 "email" "email_1");
    reflexivity.
Defined.

Lemma initCollection_stops_at_first_failure_witness :
  (initCollection ["email"] "User" exFlaky).1 = Return (Some exDb) ∧
  (createUniqueIndex "name" "User"
     (initCollection ["email"] "User" exFlaky).2).1 = Throw exNetworkError ∧
  ∃ s', initCollection ["email"; "name"; "age"] "User" exFlaky
          = (Throw exNetworkError, s') ∧
        driverView (world s')
          = driverView (world (createUniqueIndex "name" "User"
                                 (initCollection ["email"] "User" exFlaky).2).2).
Proof.
  split; [reflexivity|]. split; [reflexivity|].
  destruct (initCollection_stops_at_first_failure ["email"] "name" ["age"]
              "User" exFlaky (Some exDb)
              (initCollection ["email"] "User" exFlaky).2 exNetworkError
              (createUniqueIndex "name" "User"
                 (initCollection ["email"] "User" exFlaky).2).2)
    as (s' & H & _ & Hv).
  - vm_compute. reflexivity.
  - vm_compute. reflexivity.
  - exists s'. split; [exact H|exact Hv].
Defined.

Lemma initCollection_rerun_witness :
  faults (world exFresh) = [] ∧
  (initCollection ["email"] "User" exFresh).1 = Return (Some exDb) ∧
  ∃ s2, initCollection ["email"] "User" exIndexed = (Return (Some exDb), s2) ∧
        store (world s2) = store (world exIndexed).
Proof.
  split; [reflexivity|]. split; [reflexivity|].
  destruct (initCollection_rerun ["email"] "User" exFresh (Some exDb) exIndexed
              eq_refl) as (s2 & H & _ & Hst).
  - vm_compute. reflexivity.
  - exists s2. split; [exact H|exact Hst].
Defined.

Lemma public_method_keeps_connection_witness :
  connected exConnected ∧
  this (perform (MAddDocument "User" exDocument) exConnected)
    = this exConnected.
Proof.
  assert (connected exConnected) as Hc.
  { split; eexists; reflexivity. }
  split; [exact Hc|].
  exact (proj1 (public_method_keeps_connection
                  (MAddDocument "User" exDocument) exConnected Hc)).
Defined.

Lemma connects_once_witness :
  clientPromise exWorld = Return exClient ∧
  ∃ o evs,
    <[0 := this (perform (MAddDocument "User" exDocument) exFresh)]>
      (heap (getInstance "pgc" initialProcess).2) = [o] ∧
    trace (world (perform (MAddDocument "User" exDocument) exFresh))
      = trace exWorld ++ evs ∧
    ((o = new_DataBase "pgc" ∧ evs = []) ∨
     (o = connectedTo "pgc" exClient ∧
      ∃ reqs, evs = AwaitClientPromise :: reqs ∧
              Forall (λ ev, isRequest ev = true) reqs)).
Proof.
  split; [reflexivity|].
  exact (connects_once "pgc" exClient exWorld _ _ eq_refl
           (rtc_once _ _
              (step_method (MAddDocument "User" exDocument) 0
                 (new_DataBase "pgc") (getInstance "pgc" initialProcess).2
                 exWorld eq_refl eq_refl))).
Defined.

Lemma disconnect_connect_round_trip_witness :
  client (this exConnected) = Some exClient ∧
  nextFault (world exConnected) = None ∧
  this (connectDb (disconnectDb exConnected).2).2 = this exConnected.
Proof.
  split; [reflexivity|]. split; [reflexivity|].
  destruct (disconnect_connect_round_trip exConnected exClient
              eq_refl eq_refl eq_refl eq_refl)
    as (_ & _ & _ & _ & _ & _ & H & _).
  exact H.
Defined.

Lemma never_requests_without_connection_witness :
  clientPromise (world exRejected) = Throw exNetworkError ∧
  <[0 := this (perform (MAddDocument "User" exDocument) exRejected)]>
    (heap (getInstance "pgc" initialProcess).2) = [new_DataBase "pgc"] ∧
  store (world (perform (MAddDocument "User" exDocument) exRejected))
    = store (world exRejected).
Proof.
  split; [reflexivity|].
  destruct (never_requests_without_connection "pgc" exNetworkError
              (world exRejected) _ _ eq_refl
              (rtc_once _ _
                 (step_method (MAddDocument "User" exDocument) 0
                    (new_DataBase "pgc") (getInstance "pgc" initialProcess).2
                    (world exRejected) eq_refl eq_refl))) as (H1 & H2 & _).
  split; [exact H1|exact H2].
Defined.

Lemma documentExists_by_insertedId_witness :
  (addDocument "User" exDocument exFresh).1
    = Return {| ins_acknowledged := true; insertedId := VObjectId 0 |} ∧
  nextFault (world (addDocument "User" exDocument exFresh).2) = None ∧
  ∃ s2, documentExists "_id" (VObjectId 0) "User"
          (addDocument "User" exDocument exFresh).2 = (Return true, s2).
Proof.
  split; [reflexivity|]. split; [reflexivity|].
  apply (documentExists_by_insertedId "User" exDocument exFresh
           {| ins_acknowledged := true; insertedId := VObjectId 0 |}).
  - vm_compute. reflexivity.
  - reflexivity.
Defined.

Lemma initDb_after_first_call_witness :
  db (this exFresh) = None ∧
  clientPromise (world exFresh) = Return exClient ∧
  ∃ s2, initDb ["email"] "User"
          (perform (MDocumentExists "email" (VString "a@x.com") "User") exFresh)
          = (Return (Some exDb), s2) ∧
        driverView (world s2)
          = driverView
              (world (perform (MDocumentExists "email" (VString "a@x.com") "User")
                        exFresh)).
Proof.
  split; [reflexivity|]. split; [reflexivity|].
  destruct (initDb_after_first_call
              (MDocumentExists "email" (VString "a@x.com") "User") ["email"]
              "User" exFresh exClient eq_refl eq_refl) as (s2 & H & _ & Hv).
  exists s2. split; [exact H|exact Hv].
Defined.

Lemma overlapping_connects_witness :
  truthy (client (this exFresh)) && truthy (db (this exFresh)) = false ∧
  (∃ p1 p2,
     (connectDb_start exFresh).1 = Return p1 ∧
     (connectDb_start (connectDb_start exFresh).2).1 = Return p2 ∧
     this (p2 (p1 (bothWaiting exFresh)).2).2 = connectedTo "pgc" exClient ∧
     this (p1 (p2 (bothWaiting exFresh)).2).2 = connectedTo "pgc" exClient ∧
     trace (world (p2 (p1 (bothWaiting exFresh)).2).2)
       = [AwaitClientPromise; AwaitClientPromise]) ∧
  truthy (client (this exRejected)) && truthy (db (this exRejected)) = false ∧
  (∃ p1 p2,
     (connectDb_start exRejected).1 = Return p1 ∧
     (connectDb_start (connectDb_start exRejected).2).1 = Return p2 ∧
     (p1 (bothWaiting exRejected)).1 = Throw exNetworkError ∧
     (p2 (p1 (bothWaiting exRejected)).2).1 = Throw exNetworkError ∧
     this (p2 (p1 (bothWaiting exRejected)).2).2 = this exRejected).
Proof.
  split; [reflexivity|]. split; [|split; [reflexivity|]].
  - destruct (overlapping_connects exFresh eq_refl)
      as (p1 & p2 & H1 & H2 & Hall).
    exists p1, p2.
    split; [exact (f_equal fst H1)|].
    split; [exact (f_equal fst H2)|].
    destruct (Hall p1 p2 (or_introl (conj eq_refl eq_refl)))
      as (Ht & _ & _ & _ & Hthis & _).
    destruct (Hall p2 p1 (or_intror (conj eq_refl eq_refl)))
      as (_ & _ & _ & _ & Hthis' & _).
    split; [exact Hthis|]. split; [exact Hthis'|exact Ht].
  - destruct (overlapping_connects exRejected eq_refl)
      as (p1 & p2 & H1 & H2 & Hall).
    exists p1, p2.
    split; [exact (f_equal fst H1)|].
    split; [exact (f_equal fst H2)|].
    destruct (Hall p1 p2 (or_introl (conj eq_refl eq_refl)))
      as (_ & _ & Hr1 & Hr2 & Hthis).
    split; [exact Hr1|]. split; [exact Hr2|exact Hthis].
Defined.
